(** * Extension feature access bookkeeping

    A shallow embedding of [ExtensionFeaturesManagementService]
    (vs/workbench/services/extensionManagement/common/extensionFeaturesManagemetService.ts)
    and the properties of its enablement flag, access counters and
    persistence.

    Conventions of the embedding.
    - A JavaScript [number] holding a counter or a millisecond time stamp is
      an integer of [Z]; the development does not go near 2^53.
    - A [Map<string, _>] and an object used as a string dictionary are a
      [gmap string _]; the iteration order of the source's maps (insertion
      order) is therefore not represented, nor is the special treatment
      JavaScript objects give the property name [__proto__].
    - An optional field ([disabled?], [current?], [status]) is an [option];
      [None] is JavaScript's [undefined].
    - An [ExtensionIdentifier] is represented by its [value], the string the
      service keys its map with.
    - The service is a state record threaded through a state-and-exception
      monad; an emitter is the list of the events it has fired, oldest first,
      each with the value its payload had when it was fired.
    - The stored string is represented by what [JSON.parse] makes of it, for
      the strings that do not parse and for those that encode a dictionary
      of the declared type.
    - The two inputs a call takes from its environment, [Date.now()] and the
      answer of [dialogService.confirm], are arguments of [getAccess], which
      is the call during whose dialog nothing else runs. The call as the
      source has it, suspended at the [await] of line 100 while other calls
      and storage notifications run, is [getAccessBegin] followed, any number
      of steps later, by [getAccessResume] or [getAccessResumeDetached]. *)

From stdpp Require Import base option list strings gmap sorting.
From Stdlib Require Import ZArith Lia.

Local Open Scope Z_scope.

(** ** Data model *)

(** [Severity] of vs/base/common/severity. *)
Module Severity.
Inductive t := Ignore | Info | Warning | Error.
#[global] Instance eq_dec : EqDecision t.
Proof. solve_decision. Defined.
End Severity.

(** The [status] argument of [setStatus]: [{ severity, message }]. *)
Record Status := { severity : Severity.t; message : string }.

(** [IExtensionFeatureAccessData.current]. *)
Record Current := {
  count : Z;
  lastAccessed : Z;
  status : option Status
}.

(** [IExtensionFeatureAccessData]. *)
Record IExtensionFeatureAccessData := {
  totalCount : Z;
  current : option Current
}.

(** [IExtensionFeatureState] (line 23). *)
Record IExtensionFeatureState := {
  disabled : option bool;
  accessData : IExtensionFeatureAccessData
}.

(** What the registry collaborator returns for a feature id; the fields are
    those the registrations in the repository give ([label], the optional
    [description], [enablement.canToggle]). *)
Record IExtensionFeatureDescriptor := {
  label : string;
  description : option string;
  canToggle : bool
}.

(** One entry of the persisted JSON:
    [{ disabled?: boolean; accessCount: number }]. *)
Record PersistedFeature := {
  p_disabled : option bool;
  accessCount : Z
}.

(** The string kept under [FEATURES_STATE_KEY] in profile storage, up to
    [JSON.parse]: no value (the service then reads the default ['{}']), a
    string that does not parse, or the JSON of a dictionary of dictionaries
    of [PersistedFeature]. *)
Inductive StoredValue :=
| NoValue
| Malformed
| Json (data : gmap string (gmap string PersistedFeature)).

(** Payloads of the two emitters. *)
Record EnablementEvent := {
  ee_extension : string;
  ee_featureId : string;
  ee_enabled : bool
}.

Record AccessDataEvent := {
  ad_extension : string;
  ad_featureId : string;
  ad_accessData : option IExtensionFeatureAccessData
}.

#[global] Instance Status_eq_dec : EqDecision Status.
Proof. solve_decision. Defined.
#[global] Instance Current_eq_dec : EqDecision Current.
Proof. solve_decision. Defined.
#[global] Instance IExtensionFeatureAccessData_eq_dec :
  EqDecision IExtensionFeatureAccessData.
Proof. solve_decision. Defined.
#[global] Instance IExtensionFeatureState_eq_dec :
  EqDecision IExtensionFeatureState.
Proof. solve_decision. Defined.

(** The service object: its collaborators' relevant state and its own. *)
Record Service := {
  registry : gmap string IExtensionFeatureDescriptor;
  extensionFeaturesState : gmap string (gmap string IExtensionFeatureState);
  storageService : StoredValue;
  onDidChangeEnablement : list EnablementEvent;
  onDidChangeAccessData : list AccessDataEvent
}.

Definition with_state (m : gmap string (gmap string IExtensionFeatureState))
    (s : Service) : Service :=
  {| registry := registry s;
     extensionFeaturesState := m;
     storageService := storageService s;
     onDidChangeEnablement := onDidChangeEnablement s;
     onDidChangeAccessData := onDidChangeAccessData s |}.

Definition with_storage (v : StoredValue) (s : Service) : Service :=
  {| registry := registry s;
     extensionFeaturesState := extensionFeaturesState s;
     storageService := v;
     onDidChangeEnablement := onDidChangeEnablement s;
     onDidChangeAccessData := onDidChangeAccessData s |}.

Definition with_enablement_fired (e : EnablementEvent) (s : Service)
    : Service :=
  {| registry := registry s;
     extensionFeaturesState := extensionFeaturesState s;
     storageService := storageService s;
     onDidChangeEnablement := onDidChangeEnablement s ++ [e];
     onDidChangeAccessData := onDidChangeAccessData s |}.

Definition with_accessData_fired (e : AccessDataEvent) (s : Service)
    : Service :=
  {| registry := registry s;
     extensionFeaturesState := extensionFeaturesState s;
     storageService := storageService s;
     onDidChangeEnablement := onDidChangeEnablement s;
     onDidChangeAccessData := onDidChangeAccessData s ++ [e] |}.

(** ** The monad of method bodies *)

Inductive Outcome (A : Type) :=
| Returned (a : A)
| Thrown (msg : string).
Arguments Returned {A} a.
Arguments Thrown {A} msg.

Definition M (A : Type) : Type := Service → Outcome A * Service.

#[global] Instance M_ret : MRet M := λ A a s, (Returned a, s).

#[global] Instance M_bind : MBind M := λ A B f m s,
  match m s with
  | (Returned a, s') => f a s'
  | (Thrown msg, s') => (Thrown msg, s')
  end.

Definition throw {A} (msg : string) : M A := λ s, (Thrown msg, s).
Definition gets {A} (f : Service → A) : M A := λ s, (Returned (f s), s).
Definition modify (f : Service → Service) : M unit := λ s, (Returned tt, f s).

(** [for (const x of xs) body(x)]. *)
Fixpoint forEach {A} (xs : list A) (body : A → M unit) : M unit :=
  match xs with
  | [] => mret tt
  | x :: xs' => body x ;; forEach xs' body
  end.

Definition when (b : bool) (m : M unit) : M unit := if b then m else mret tt.

(** ** Collaborators *)

(** [this.registry.getExtensionFeature(featureId)]. *)
Definition getExtensionFeature (featureId : string)
    : M (option IExtensionFeatureDescriptor) :=
  gets (λ s, registry s !! featureId).

(** [this._onDidChangeEnablement.fire(e)] and
    [this._onDidChangeAccessData.fire(e)]. *)
Definition fireEnablement (e : EnablementEvent) : M unit :=
  modify (with_enablement_fired e).
Definition fireAccessData (e : AccessDataEvent) : M unit :=
  modify (with_accessData_fired e).

(** ** Private methods *)

(** Lines 147-149. *)
Definition lookupState (m : gmap string (gmap string IExtensionFeatureState))
    (extension featureId : string) : option IExtensionFeatureState :=
  m !! extension ≫= λ extensionState, extensionState !! featureId.

Definition getExtensionFeatureState (extension featureId : string)
    : M (option IExtensionFeatureState) :=
  gets (λ s, lookupState (extensionFeaturesState s) extension featureId).

(** The record of line 159: [{ accessData: { totalCount: 0 } }]. *)
Definition newFeatureState : IExtensionFeatureState :=
  {| disabled := None; accessData := {| totalCount := 0; current := None |} |}.

(** Lines 151-163. The source returns a reference to the record held in the
    map; the embedding returns the record's value at that moment, and every
    later access through the reference goes through [deref] and
    [updateFeatureState] below. *)
Definition getAndSetIfNotExistsExtensionFeatureState
    (extension featureId : string) : M IExtensionFeatureState :=
  found ← gets (λ s, extensionFeaturesState s !! extension);
  extensionState ←
    match found with
    | Some extensionState => mret extensionState
    | None =>
        modify (λ s, with_state
          (<[extension := ∅]> (extensionFeaturesState s)) s) ;;
        mret ∅
    end;
  match extensionState !! featureId with
  | Some featureState => mret featureState
  | None =>
      modify (λ s, with_state
        (<[extension := <[featureId := newFeatureState]> extensionState]>
           (extensionFeaturesState s)) s) ;;
      mret newFeatureState
  end.

(** A read through the reference [featureState]. *)
Definition deref (extension featureId : string) : M IExtensionFeatureState :=
  gets (λ s, default newFeatureState
               (lookupState (extensionFeaturesState s) extension featureId)).

(** A write through the reference [featureState]: the record is changed in
    place, inside the map. *)
Definition updateFeatureState (extension featureId : string)
    (f : IExtensionFeatureState → IExtensionFeatureState) : M unit :=
  modify (λ s, with_state
    (alter (alter f featureId) extension (extensionFeaturesState s)) s).

(** The assignments the methods make through the reference. *)

(** Line 68: [featureState.disabled = !enabled]. *)
Definition assignDisabled (d : bool) (fs : IExtensionFeatureState)
    : IExtensionFeatureState :=
  {| disabled := Some d; accessData := accessData fs |}.

(** Lines 114-118: [featureState.accessData.current = { count: ..., ... }];
    the condition of line 115 is the truthiness of a number. *)
Definition assignCurrentOnAccess (now : Z) (fs : IExtensionFeatureState)
    : IExtensionFeatureState :=
  {| disabled := disabled fs;
     accessData :=
       {| totalCount := totalCount (accessData fs);
          current := Some
            {| count :=
                 match count <$> current (accessData fs) with
                 | Some c => if bool_decide (c = 0) then 1 else c + 1
                 | None => 1
                 end;
               lastAccessed := now;
               status := current (accessData fs) ≫= status |} |} |}.

(** Line 119: [totalCount = totalCount + 1]. *)
Definition incrementTotalCount (fs : IExtensionFeatureState)
    : IExtensionFeatureState :=
  {| disabled := disabled fs;
     accessData :=
       {| totalCount := totalCount (accessData fs) + 1;
          current := current (accessData fs) |} |}.

(** Lines 139-143: [featureState.accessData.current = { count: ... ?? 0,
    lastAccessed: ... ?? 0, status }]. *)
Definition assignCurrentOnStatus (st : option Status)
    (fs : IExtensionFeatureState) : IExtensionFeatureState :=
  {| disabled := disabled fs;
     accessData :=
       {| totalCount := totalCount (accessData fs);
          current := Some
            {| count := default 0 (count <$> current (accessData fs));
               lastAccessed :=
                 default 0 (lastAccessed <$> current (accessData fs));
               status := st |} |} |}.

(** What lines 216-226 build from the in-memory state. *)
Definition persistFeature (featureState : IExtensionFeatureState)
    : PersistedFeature :=
  {| p_disabled := disabled featureState;
     accessCount := totalCount (accessData featureState) |}.

Definition persisted (m : gmap string (gmap string IExtensionFeatureState))
    : gmap string (gmap string PersistedFeature) :=
  (λ extensionState : gmap string IExtensionFeatureState,
     persistFeature <$> extensionState) <$> m.

(** Lines 215-228. *)
Definition saveState : M unit :=
  modify (λ s, with_storage (Json (persisted (extensionFeaturesState s))) s).

(** What lines 197-212 build from the parsed data. *)
Definition restoreFeature (extensionFeature : PersistedFeature)
    : IExtensionFeatureState :=
  {| disabled := p_disabled extensionFeature;
     accessData := {| totalCount := accessCount extensionFeature;
                      current := None |} |}.

Definition restored (raw : StoredValue)
    : gmap string (gmap string IExtensionFeatureState) :=
  match raw with
  | NoValue => ∅
  | Malformed => ∅
  | Json data =>
      (λ extensionFeatures : gmap string PersistedFeature,
         restoreFeature <$> extensionFeatures) <$> data
  end.

(** Lines 189-213. *)
Definition loadState : M (gmap string (gmap string IExtensionFeatureState)) :=
  gets (λ s, restored (storageService s)).

(** ** Public methods *)

(** Lines 53-59. *)
Definition isEnabled (extension featureId : string) : M bool :=
  feature ← getExtensionFeature featureId;
  match feature with
  | None => mret false
  | Some _ =>
      featureState ← getExtensionFeatureState extension featureId;
      mret (negb (default false (featureState ≫= disabled)))
  end.

(** The message of the [Error] thrown at lines 64 and 136. *)
Definition noFeature (featureId : string) : string :=
  "No feature with id '" +:+ featureId +:+ "'".

(** Lines 61-72. *)
Definition setEnablement (extension featureId : string) (enabled : bool)
    : M unit :=
  feature ← getExtensionFeature featureId;
  match feature with
  | None => throw (noFeature featureId)
  | Some _ =>
      featureState ←
        getAndSetIfNotExistsExtensionFeatureState extension featureId;
      if bool_decide (disabled featureState ≠ Some (negb enabled)) then
        updateFeatureState extension featureId
          (assignDisabled (negb enabled)) ;;
        fireEnablement {| ee_extension := extension;
                          ee_featureId := featureId;
                          ee_enabled := enabled |} ;;
        saveState
      else mret tt
  end.

(** Lines 74-86; the result lists the extensions in the order of the
    embedding's map, not in insertion order. *)
Definition getEnablementData (featureId : string) : M (list (string * bool)) :=
  feature ← getExtensionFeature featureId;
  match feature with
  | None => mret []
  | Some _ =>
      gets (λ s,
        omap (λ entry : string * gmap string IExtensionFeatureState,
                d ← (entry.2 !! featureId) ≫= disabled;
                Some (entry.1, negb d))
             (map_to_list (extensionFeaturesState s)))
  end.

(** Lines 114-122: the access is recorded through the reference
    [featureState]. *)
Definition recordAccess (extension featureId : string) (now : Z) : M bool :=
  updateFeatureState extension featureId (assignCurrentOnAccess now) ;;
  updateFeatureState extension featureId incrementTotalCount ;;
  saveState ;;
  featureState ← deref extension featureId;
  fireAccessData {| ad_extension := extension;
                    ad_featureId := featureId;
                    ad_accessData := Some (accessData featureState) |} ;;
  mret true.

(** Lines 88-123. [now] is the value of [Date.now()] and [confirmed] the
    [confirmed] field of what [dialogService.confirm] resolves to; the dialog
    is only consulted in the branch of line 98. This is the call during
    whose dialog nothing else runs on the service; the call suspended at
    the [await] of line 100 is modelled in two steps further down
    ([getAccessBegin], [getAccessResume], [getAccessResumeDetached]), of
    which this is the composition ([getAccess_begin_resume]). *)
Definition getAccess (extension featureId : string) (now : Z)
    (confirmed : bool) : M bool :=
  feature ← getExtensionFeature featureId;
  match feature with
  | None => mret false
  | Some _ =>
      featureState ←
        getAndSetIfNotExistsExtensionFeatureState extension featureId;
      match disabled featureState with
      | Some true => mret false
      | Some false => recordAccess extension featureId now
      | None =>
          setEnablement extension featureId confirmed ;;
          if confirmed then recordAccess extension featureId now
          else mret false
      end
  end.

(** Lines 125-131. *)
Definition getAccessData (extension featureId : string)
    : M (option IExtensionFeatureAccessData) :=
  feature ← getExtensionFeature featureId;
  match feature with
  | None => mret None
  | Some _ =>
      featureState ← getExtensionFeatureState extension featureId;
      mret (accessData <$> featureState)
  end.

(** Lines 133-145. *)
Definition setStatus (extension featureId : string) (st : option Status)
    : M unit :=
  feature ← getExtensionFeature featureId;
  match feature with
  | None => throw (noFeature featureId)
  | Some _ =>
      getAndSetIfNotExistsExtensionFeatureState extension featureId ;;
      updateFeatureState extension featureId (assignCurrentOnStatus st) ;;
      payload ← getAccessData extension featureId;
      fireAccessData {| ad_extension := extension;
                        ad_featureId := featureId;
                        ad_accessData := payload |}
  end.

(** Lines 165-187, the listener of the storage key. [external] is
    [e.external]; [distinct] of the two key lists is the list of the
    elements of the union of the two domains. *)
Definition onDidStorageChange (external : bool) : M unit :=
  if external then
    oldState ← gets extensionFeaturesState;
    newState ← loadState;
    modify (with_state newState) ;;
    forEach (elements (dom oldState ∪ dom newState)) (λ extensionId,
      let oldExtensionFeaturesState := oldState !! extensionId in
      let newExtensionFeaturesState := newState !! extensionId in
      forEach (elements (dom (default ∅ oldExtensionFeaturesState)
                         ∪ dom (default ∅ newExtensionFeaturesState)))
        (λ featureId,
          let oldFeatureState :=
            oldExtensionFeaturesState ≫= λ m, m !! featureId in
          enabledNow ← isEnabled extensionId featureId;
          let wasEnabled :=
            negb (default false (oldFeatureState ≫= disabled)) in
          when (negb (eqb enabledNow wasEnabled))
            (fireEnablement {| ee_extension := extensionId;
                               ee_featureId := featureId;
                               ee_enabled := enabledNow |}) ;;
          newAccessData ← getAccessData extensionId featureId;
          let oldAccessData := accessData <$> oldFeatureState in
          when (bool_decide (newAccessData ≠ oldAccessData))
            (fireAccessData
               {| ad_extension := extensionId;
                  ad_featureId := featureId;
                  ad_accessData := Some (default
                    {| totalCount := 0; current := None |} newAccessData) |})))
  else mret tt.

(** The constructor (lines 42-51): no event fired yet, the state loaded from
    what storage holds. *)
Definition newService (reg : gmap string IExtensionFeatureDescriptor)
    (stored : StoredValue) : Service :=
  {| registry := reg;
     extensionFeaturesState := restored stored;
     storageService := stored;
     onDidChangeEnablement := [];
     onDidChangeAccessData := [] |}.

(** ** Histories of the service *)

(** What happens to a service object during its life: a call of one of its
    public methods, or a notification of its storage listener.
    [ExternalWrite stored] is another process storing [stored] under the
    key, upon which the listener runs with [e.external] true; [OwnChange] is
    the notification of one of the service's own writes ([e.external]
    false). *)
Inductive Call :=
| IsEnabled (extension featureId : string)
| SetEnablement (extension featureId : string) (enabled : bool)
| GetEnablementData (featureId : string)
| GetAccess (extension featureId : string) (now : Z) (confirmed : bool)
| GetAccessData (extension featureId : string)
| SetStatus (extension featureId : string) (st : option Status)
| ExternalWrite (stored : StoredValue)
| OwnChange.

Inductive Value :=
| VUnit
| VBool (b : bool)
| VEnablementData (l : list (string * bool))
| VAccessData (a : option IExtensionFeatureAccessData).

Definition exec (c : Call) : M Value :=
  match c with
  | IsEnabled extension featureId =>
      b ← isEnabled extension featureId; mret (VBool b)
  | SetEnablement extension featureId enabled =>
      setEnablement extension featureId enabled ;; mret VUnit
  | GetEnablementData featureId =>
      l ← getEnablementData featureId; mret (VEnablementData l)
  | GetAccess extension featureId now confirmed =>
      b ← getAccess extension featureId now confirmed; mret (VBool b)
  | GetAccessData extension featureId =>
      a ← getAccessData extension featureId; mret (VAccessData a)
  | SetStatus extension featureId st =>
      setStatus extension featureId st ;; mret VUnit
  | ExternalWrite stored =>
      modify (with_storage stored) ;; onDidStorageChange true ;; mret VUnit
  | OwnChange =>
      onDidStorageChange false ;; mret VUnit
  end.

(** The state a history leaves; a call that throws leaves the state it had
    reached, and the history goes on. *)
Definition run (calls : list Call) (s : Service) : Service :=
  foldl (λ s c, (exec c s).2) s calls.

(** The states a service object can be in: built by the constructor over
    some registry and some stored value, then taken through a history. *)
Definition reachable (s : Service) : Prop :=
  ∃ reg stored calls, s = run calls (newService reg stored).

(** ** Observations *)

(** The record of a pair, and its lifetime counter (0 while the pair has no
    record). *)
Definition stateOf (s : Service) (extension featureId : string)
    : option IExtensionFeatureState :=
  lookupState (extensionFeaturesState s) extension featureId.

Definition totalOf (s : Service) (extension featureId : string) : Z :=
  default 0 (totalCount ∘ accessData <$> stateOf s extension featureId).

(** The stored [disabled] flag of a pair; [None] is the never-decided
    state. *)
Definition disabledOf (s : Service) (extension featureId : string)
    : option bool :=
  stateOf s extension featureId ≫= disabled.

(** The registrations found in the repository. *)
Definition repoRegistry : gmap string IExtensionFeatureDescriptor :=
  {[ "codeActions" := {| label := "Code Actions"; description := None;
                         canToggle := false |};
     "jsonValidation" := {| label := "JSON Validation"; description := None;
                            canToggle := false |} ]}.

(** The current-session part of a pair's access data. *)
Definition currentOf (s : Service) (extension featureId : string)
    : option Current :=
  stateOf s extension featureId ≫= λ fs, current (accessData fs).

(** The current-session counter, 0 while there is none. *)
Definition sessionCountOf (s : Service) (extension featureId : string) : Z :=
  default 0 (count <$> currentOf s extension featureId).

(** The entry of a pair in a stored value. *)
Definition storedOf (stored : StoredValue) (extension featureId : string)
    : option PersistedFeature :=
  match stored with
  | Json data => data !! extension ≫= λ extensionFeatures,
                   extensionFeatures !! featureId
  | _ => None
  end.

(** What each call of a history returned or threw. *)
Fixpoint outcomes (calls : list Call) (s : Service) : list (Outcome Value) :=
  match calls with
  | [] => []
  | c :: calls' => (exec c s).1 :: outcomes calls' (exec c s).2
  end.

(** A granted access of the pair: a [getAccess] of it that returned true. *)
Definition granted (extension featureId : string) (c : Call)
    (o : Outcome Value) : bool :=
  match c, o with
  | GetAccess extension' featureId' _ _, Returned (VBool true) =>
      bool_decide (extension' = extension ∧ featureId' = featureId)
  | _, _ => false
  end.


(** A call that is not a write of another process. *)
Definition local (c : Call) : Prop :=
  match c with
  | ExternalWrite _ => False
  | _ => True
  end.

(** [n] calls of [getAccess] for one pair, given the clock reading and the
    dialog answer available to each. *)
Definition accessCalls (extension featureId : string)
    (inputs : list (Z * bool)) : list Call :=
  (λ i : Z * bool, GetAccess extension featureId i.1 i.2) <$> inputs.

(** The access-data events such a series is expected to fire, from a
    lifetime count [total] and a session count [session]. *)
Fixpoint expectedAccessEvents (extension featureId : string)
    (total session : Z) (st : option Status) (inputs : list (Z * bool))
    : list AccessDataEvent :=
  match inputs with
  | [] => []
  | i :: inputs' =>
      {| ad_extension := extension; ad_featureId := featureId;
         ad_accessData := Some
           {| totalCount := total + 1;
              current := Some {| count := session + 1;
                                 lastAccessed := i.1;
                                 status := st |} |} |}
      :: expectedAccessEvents extension featureId (total + 1) (session + 1)
           st inputs'
  end.

(** The map [getAndSetIfNotExistsExtensionFeatureState] leaves. *)
Definition ensured (m : gmap string (gmap string IExtensionFeatureState))
    (extension featureId : string)
    : gmap string (gmap string IExtensionFeatureState) :=
  match lookupState m extension featureId with
  | Some _ => m
  | None =>
      <[extension := <[featureId := newFeatureState]>
                       (default ∅ (m !! extension))]> m
  end.

(** What one call not coming from another process can do to the record of
    one pair, with whether the call was a granted access of that pair:
    nothing; decide the flag; set the status; count an access of an enabled
    pair; decide for enabled and count the access. The record is created
    where it is missing. *)
Inductive RecordStep
    : option IExtensionFeatureState → option IExtensionFeatureState → bool
      → Prop :=
| rs_same o :
    RecordStep o o false
| rs_decided o d :
    RecordStep o (Some (assignDisabled d (default newFeatureState o))) false
| rs_status o st :
    RecordStep o
      (Some (assignCurrentOnStatus st (default newFeatureState o))) false
| rs_accessed fs now :
    disabled fs = Some false →
    RecordStep (Some fs)
      (Some (incrementTotalCount (assignCurrentOnAccess now fs))) true
| rs_allowed o now :
    o ≫= disabled = None →
    RecordStep o
      (Some (incrementTotalCount (assignCurrentOnAccess now
               (assignDisabled false (default newFeatureState o))))) true.

(** The pair a call is about, for the calls that are about one. *)
Definition target (c : Call) : option (string * string) :=
  match c with
  | SetEnablement extension featureId _ => Some (extension, featureId)
  | GetAccess extension featureId _ _ => Some (extension, featureId)
  | SetStatus extension featureId _ => Some (extension, featureId)
  | _ => None
  end.

(** The stored value and the state agree on a pair: same flag, same lifetime
    count (a missing entry or record counting as no flag and 0). *)
Definition inSync (s : Service) : Prop :=
  ∀ extension featureId,
    storedOf (storageService s) extension featureId ≫= p_disabled
      = disabledOf s extension featureId
    ∧ default 0 (accessCount <$>
                   storedOf (storageService s) extension featureId)
      = totalOf s extension featureId.

(** What the storage listener fires for one pair when it swaps the state
    map [old] for [new]: lines 174-178 and 179-183. *)
Definition enablementChange (reg : gmap string IExtensionFeatureDescriptor)
    (old new : gmap string (gmap string IExtensionFeatureState))
    (extensionId featureId : string) : list EnablementEvent :=
  let enabledNow :=
    match reg !! featureId with
    | None => false
    | Some _ =>
        negb (default false (lookupState new extensionId featureId ≫= disabled))
    end in
  let wasEnabled :=
    negb (default false (lookupState old extensionId featureId ≫= disabled)) in
  if negb (eqb enabledNow wasEnabled)
  then [{| ee_extension := extensionId; ee_featureId := featureId;
           ee_enabled := enabledNow |}]
  else [].

Definition accessDataChange (reg : gmap string IExtensionFeatureDescriptor)
    (old new : gmap string (gmap string IExtensionFeatureState))
    (extensionId featureId : string) : list AccessDataEvent :=
  let newAccessData :=
    match reg !! featureId with
    | None => None
    | Some _ => accessData <$> lookupState new extensionId featureId
    end in
  let oldAccessData := accessData <$> lookupState old extensionId featureId in
  if bool_decide (newAccessData ≠ oldAccessData)
  then [{| ad_extension := extensionId; ad_featureId := featureId;
           ad_accessData := Some (default
             {| totalCount := 0; current := None |} newAccessData) |}]
  else [].

(** The feature ids the listener goes through for one extension, and all
    it fires, extension by extension. *)
Definition reloadFeatures
    (old new : gmap string (gmap string IExtensionFeatureState))
    (extensionId : string) : list string :=
  elements (dom (default ∅ (old !! extensionId))
            ∪ dom (default ∅ (new !! extensionId))).

Definition enablementFired (reg : gmap string IExtensionFeatureDescriptor)
    (old new : gmap string (gmap string IExtensionFeatureState))
    : list EnablementEvent :=
  extensionId ← elements (dom old ∪ dom new);
  featureId ← reloadFeatures old new extensionId;
  enablementChange reg old new extensionId featureId.

Definition accessDataFired (reg : gmap string IExtensionFeatureDescriptor)
    (old new : gmap string (gmap string IExtensionFeatureState))
    : list AccessDataEvent :=
  extensionId ← elements (dom old ∪ dom new);
  featureId ← reloadFeatures old new extensionId;
  accessDataChange reg old new extensionId featureId.

(** A stored value without negative counts, and a call that is not a write
    of another process bringing one. *)
Definition nonnegStored (stored : StoredValue) : Prop :=
  ∀ extension featureId p,
    storedOf stored extension featureId = Some p → 0 ≤ accessCount p.

Definition nonnegCall (c : Call) : Prop :=
  match c with
  | ExternalWrite stored => nonnegStored stored
  | _ => True
  end.

(** The session count of a record lies between 0 and its lifetime count. *)
Definition sessionBounded (o : option IExtensionFeatureState) : Prop :=
  0 ≤ default 0 (count <$> (o ≫= λ fs, current (accessData fs)))
    ≤ default 0 (totalCount ∘ accessData <$> o).

(** ** The dialog of [getAccess] *)

(** [getAccess] is the one method that suspends: at the [await] of line 100,
    with the dialog open and [featureState] holding the record line 93
    obtained. What runs before the [await] and what runs after it are two
    steps of the service, and other calls and notifications of the storage
    listener can run between them. [getAccess] above is the call during
    whose dialog nothing else runs. *)

(** Lines 88-99, up to the [await]. [Some b]: the call has returned [b]
    without asking; [None]: the flag is undecided, the dialog is open and
    the call is suspended. [now] is the value of [Date.now()] at line 116,
    read when the pair is enabled. *)
Definition getAccessBegin (extension featureId : string) (now : Z)
    : M (option bool) :=
  feature ← getExtensionFeature featureId;
  match feature with
  | None => mret (Some false)
  | Some _ =>
      featureState ←
        getAndSetIfNotExistsExtensionFeatureState extension featureId;
      match disabled featureState with
      | Some true => mret (Some false)
      | Some false =>
          b ← recordAccess extension featureId now; mret (Some b)
      | None => mret None
      end
  end.

(** Lines 108-122, from the answer of the dialog on, for a call whose
    [featureState] is still the record the state map has for the pair. *)
Definition getAccessResume (extension featureId : string) (now : Z)
    (confirmed : bool) : M bool :=
  setEnablement extension featureId confirmed ;;
  if confirmed then recordAccess extension featureId now else mret false.

(** What a suspended call holds: its arguments and [featureState], a
    reference to the record of the pair in one of the state maps the service
    has had. [su_map] tells which: 0 is the map of the constructor, [n] the
    one the [n]-th reload of the storage listener has put in its place. *)
Record Suspended := {
  su_extension : string;
  su_featureId : string;
  su_map : nat
}.

(** The service together with the calls of [getAccess] waiting for their
    dialog and the state maps the listener has replaced (line 168), oldest
    first, as the calls holding a record of theirs have left them. The state
    map in use is number [length replaced]. [begun] numbers the suspended
    calls. *)
Record World := {
  service : Service;
  replaced : list (gmap string (gmap string IExtensionFeatureState));
  suspended : gmap nat Suspended;
  begun : nat
}.

Definition with_service (s : Service) (w : World) : World :=
  {| service := s;
     replaced := replaced w;
     suspended := suspended w;
     begun := begun w |}.

Definition newWorld (reg : gmap string IExtensionFeatureDescriptor)
    (stored : StoredValue) : World :=
  {| service := newService reg stored;
     replaced := [];
     suspended := ∅;
     begun := 0 |}.

(** What happens to the service, one step at a time: a call or notification
    that runs to its end with nothing in between ([Atomic], for [getAccess]
    with its dialog); a call of [getAccess] up to its [await]; the answer of
    the dialog of a suspended call, with the clock reading of line 116. *)
Inductive Event :=
| Atomic (c : Call)
| Begin (extension featureId : string) (now : Z)
| Answer (call : nat) (confirmed : bool) (now : Z).

(** What a step gives back: the outcome of a call that has ended, the number
    of a call now waiting for its dialog, or nothing for an answer no call
    is waiting for. *)
Inductive Reply :=
| Replied (o : Outcome Value)
| Waiting (call : nat)
| NoSuchCall.

Definition boolOutcome (o : Outcome bool) : Outcome Value :=
  match o with
  | Returned b => Returned (VBool b)
  | Thrown msg => Thrown msg
  end.

(** A call or notification run to its end. A write of another process makes
    the listener put a new state map in place of the one in use (line 168),
    which lives on for the suspended calls that hold a record of it. *)
Definition atomic (c : Call) (w : World) : Reply * World :=
  (Replied (exec c (service w)).1,
   {| service := (exec c (service w)).2;
      replaced :=
        match c with
        | ExternalWrite _ =>
            replaced w ++ [extensionFeaturesState (service w)]
        | _ => replaced w
        end;
      suspended := suspended w;
      begun := begun w |}).

Definition begin (extension featureId : string) (now : Z) (w : World)
    : Reply * World :=
  match getAccessBegin extension featureId now (service w) with
  | (Returned (Some b), s') => (Replied (Returned (VBool b)), with_service s' w)
  | (Returned None, s') =>
      (Waiting (begun w),
       {| service := s';
          replaced := replaced w;
          suspended :=
            <[begun w := {| su_extension := extension;
                            su_featureId := featureId;
                            su_map := length (replaced w) |}]> (suspended w);
          begun := S (begun w) |})
  | (Thrown msg, s') => (Replied (Thrown msg), with_service s' w)
  end.

(** Lines 108-122 for a call whose [featureState] is a record of a replaced
    state map: [setEnablement] (line 108) and [saveState] (line 120) work on
    the state map in use, the assignments of lines 114-119 go to the record
    held, and the event of line 121 carries the access data of that
    record. *)
Definition getAccessResumeDetached (c : Suspended) (now : Z)
    (confirmed : bool) (w : World) : Outcome bool * World :=
  match setEnablement (su_extension c) (su_featureId c) confirmed
          (service w) with
  | (Thrown msg, s') => (Thrown msg, with_service s' w)
  | (Returned _, s') =>
      if confirmed then
        let held :=
          alter (alter (alter
                   (incrementTotalCount ∘ assignCurrentOnAccess now)
                   (su_featureId c)) (su_extension c))
            (su_map c) (replaced w) in
        let featureState :=
          default newFeatureState
            (held !! su_map c ≫= λ m,
               lookupState m (su_extension c) (su_featureId c)) in
        (Returned true,
         {| service :=
              ((saveState ;;
                fireAccessData
                  {| ad_extension := su_extension c;
                     ad_featureId := su_featureId c;
                     ad_accessData := Some (accessData featureState) |})
                 s').2;
            replaced := held;
            suspended := suspended w;
            begun := begun w |})
      else (Returned false, with_service s' w)
  end.

(** The dialog of the suspended call number [call] is answered. *)
Definition answer (call : nat) (confirmed : bool) (now : Z) (w : World)
    : Reply * World :=
  match suspended w !! call with
  | None => (NoSuchCall, w)
  | Some c =>
      let w0 := {| service := service w;
                   replaced := replaced w;
                   suspended := delete call (suspended w);
                   begun := begun w |} in
      if decide (su_map c = length (replaced w)) then
        let r := getAccessResume (su_extension c) (su_featureId c) now
                   confirmed (service w) in
        (Replied (boolOutcome r.1), with_service r.2 w0)
      else
        let r := getAccessResumeDetached c now confirmed w0 in
        (Replied (boolOutcome r.1), r.2)
  end.

Definition step (ev : Event) (w : World) : Reply * World :=
  match ev with
  | Atomic c => atomic c w
  | Begin extension featureId now => begin extension featureId now w
  | Answer call confirmed now => answer call confirmed now w
  end.

Definition play (events : list Event) (w : World) : World :=
  foldl (λ w ev, (step ev w).2) w events.

(** A stored value in which an entry without a [disabled] flag counts no
    access. *)
Definition undecidedUncounted (stored : StoredValue) : Prop :=
  ∀ extension featureId p,
    storedOf stored extension featureId = Some p →
    p_disabled p = None → accessCount p = 0.

(** The same of a record: while its flag is undecided, neither counter has
    counted an access. *)
Definition uncounted (o : option IExtensionFeatureState) : Prop :=
  o ≫= disabled = None →
  default 0 (totalCount ∘ accessData <$> o) = 0
  ∧ default 0 (count <$> (o ≫= λ fs, current (accessData fs))) = 0.

(** The states of a service whose storage only ever holds values of that
    kind, when it is constructed and when another process writes; these are
    the values services write ([reachableWorld_storage] below). *)
Definition ownStorage (ev : Event) : Prop :=
  match ev with
  | Atomic (ExternalWrite stored) => undecidedUncounted stored
  | _ => True
  end.

Definition reachableWorld (w : World) : Prop :=
  ∃ reg stored events,
    undecidedUncounted stored ∧ Forall ownStorage events
    ∧ w = play events (newWorld reg stored).

(** The event is the answer of the dialog of the given call. *)
Definition answers (call : nat) (ev : Event) : Prop :=
  match ev with
  | Answer call' _ _ => call' = call
  | _ => False
  end.

(** While the events run, the stored value is not changed by another
    process and no access of the pair is asked for or resumed. *)
Definition quietEvent (extension featureId : string) (ev : Event)
    (w : World) : Prop :=
  match ev with
  | Atomic (ExternalWrite _) => False
  | Atomic (GetAccess extension' featureId' _ _) =>
      ¬ (extension' = extension ∧ featureId' = featureId)
  | Atomic _ => True
  | Begin extension' featureId' _ =>
      ¬ (extension' = extension ∧ featureId' = featureId)
  | Answer call _ _ =>
      match suspended w !! call with
      | Some c => ¬ (su_extension c = extension ∧ su_featureId c = featureId)
      | None => True
      end
  end.

Fixpoint quiet (extension featureId : string) (events : list Event)
    (w : World) : Prop :=
  match events with
  | [] => True
  | ev :: events' =>
      quietEvent extension featureId ev w
      ∧ quiet extension featureId events' (step ev w).2
  end.

(** The two counters of a record read the same in [o'] as in [o] (0 for a
    missing record or session count), and the record is not lost. *)
Definition sameCounts (o o' : option IExtensionFeatureState) : Prop :=
  (is_Some o → is_Some o')
  ∧ default 0 (totalCount ∘ accessData <$> o')
    = default 0 (totalCount ∘ accessData <$> o)
  ∧ default 0 (count <$> (o' ≫= λ fs, current (accessData fs)))
    = default 0 (count <$> (o ≫= λ fs, current (accessData fs))).

(** A service whose records and stored value count no access for an
    undecided pair. *)
Definition sound (s : Service) : Prop :=
  (∀ extension featureId, uncounted (stateOf s extension featureId))
  ∧ undecidedUncounted (storageService s).

(** * Branch protection of the git extension

    [GitBranchProtectionProvider] (extensions/git/src/branchProtection.ts).
    A string is the list of its UTF-16 code units, so that [trim] can be
    given with the white space ECMAScript defines. The value of the
    setting and whether a configuration change affects it are inputs of the
    listener. An emitter is again the list of what it has fired. *)
Module BranchProtection.

(** The code units of an ASCII literal, for examples. *)
Definition units (s : string) : list N :=
  Ascii.N_of_ascii <$> String.list_ascii_of_string s.

(** [WhiteSpace] and [LineTerminator] of ECMAScript, which
    [String.prototype.trim] removes: TAB, LF, VT, FF, CR, SP, NBSP, the
    space separators of Unicode (category Zs), LS, PS and ZWNBSP. *)
Definition isWhiteSpace (c : N) : bool :=
  bool_decide (c ∈ [0x9; 0xA; 0xB; 0xC; 0xD; 0x20; 0xA0; 0x1680;
                    0x2000; 0x2001; 0x2002; 0x2003; 0x2004; 0x2005; 0x2006;
                    0x2007; 0x2008; 0x2009; 0x200A; 0x2028; 0x2029; 0x202F;
                    0x205F; 0x3000; 0xFEFF]%N).

Fixpoint trimStart (s : list N) : list N :=
  match s with
  | [] => []
  | c :: s' => if isWhiteSpace c then trimStart s' else s
  end.

Definition trimEnd (s : list N) : list N :=
  reverse (trimStart (reverse s)).

(** [String.prototype.trim]. *)
Definition trim (s : list N) : list N := trimEnd (trimStart s).

(** What [scopedConfig.get<unknown>('branchProtection')] can give: nothing,
    [null], a string, an array, or a value of another type (a boolean, a
    number, an object). *)
#[warnings="-register-all"]
Inductive ConfigValue :=
| Undefined
| Null
| Str (s : list N)
| Arr (items : list ConfigValue)
| Other.

(** Line 37: [config ?? []], then line 38: an array is taken as it is, any
    other value as the array of that one value. *)
Definition branchProtectionValues (config : ConfigValue) : list ConfigValue :=
  match config with
  | Undefined | Null => []
  | Arr items => items
  | _ => [config]
  end.

(** Lines 40-42: [.map(bp => typeof bp === 'string' ? bp.trim() : '')
    .filter(bp => bp !== '')]. *)
Definition patternsOf (config : ConfigValue) : list (list N) :=
  filter (λ bp, bp ≠ [])
    ((λ bp, match bp with Str s => trim s | _ => [] end)
       <$> branchProtectionValues config).

Record Provider := {
  repositoryRoot : string;
  branchProtection : gmap (list N) (list (list N));
  onDidChangeBranchProtection : list string
}.

(** Lines 35-45, with the value of the setting as [config]. *)
Definition updateBranchProtection (config : ConfigValue) (p : Provider)
    : Provider :=
  {| repositoryRoot := repositoryRoot p;
     branchProtection := <[ [] := patternsOf config ]> (branchProtection p);
     onDidChangeBranchProtection :=
       onDidChangeBranchProtection p ++ [repositoryRoot p] |}.

(** The constructor (lines 25-29). *)
Definition newProvider (root : string) (config : ConfigValue) : Provider :=
  updateBranchProtection config
    {| repositoryRoot := root; branchProtection := ∅;
       onDidChangeBranchProtection := [] |}.

(** A configuration change: the listener of line 26 runs only when the
    change affects [git.branchProtection] for the repository root. *)
Definition onDidChangeConfiguration (affects : bool) (config : ConfigValue)
    (p : Provider) : Provider :=
  if affects then updateBranchProtection config p else p.

(** Lines 31-33. *)
Definition provideBranchProtection (p : Provider)
    : gmap (list N) (list (list N)) :=
  branchProtection p.

(** A provider after a series of configuration changes. *)
Definition afterChanges (changes : list (bool * ConfigValue)) (p : Provider)
    : Provider :=
  foldl (λ p change, onDidChangeConfiguration change.1 change.2 p) p changes.

(** A string without white space at either end. *)
Definition trimmed (s : list N) : Prop :=
  (∀ c, head s = Some c → isWhiteSpace c = false)
  ∧ (∀ c, last s = Some c → isWhiteSpace c = false).

End BranchProtection.

(** * Tables of extension features

    A cell of a rendered table ([IRowData] of extensionFeatures.ts, as the
    two renderers of the repository build it): a string, or a string or a
    list of strings marked as code. *)
Inductive IRowData :=
| Text (s : string)
| Code (data : string)
| CodeList (data : list string).

(** * The jsonValidation extension point

    The handler of [JSONValidationExtensionPoint] and the table renderer of
    the feature (vs/workbench/api/common/jsonValidationExtensionPoint.ts).
    What an extension contributes is not typed at run time: a value is
    undefined, [null], a string, an array, an object, seen through the two
    properties the handler reads, or something else (a boolean, a number). [resources.joinPath]
    and [resources.isEqualOrParent] are not part of the file and are taken
    as parameters, the first one with the message of what it may throw,
    the second one as a function that always answers. A
    url only matters through ASCII characters and is a [string]. *)
Module JsonValidation.
Import Stdlib.Strings.Ascii.

#[warnings="-register-all"]
Inductive Value :=
| VUndefined
| VNull
| VString (s : string)
| VArray (items : list Value)
| VObject (fileMatch url : Value)
| VOther.

(** [isString] of vs/base/common/types: [typeof x === 'string']. *)
Definition isString (v : Value) : bool :=
  match v with VString _ => true | _ => false end.

(** [[^:/?#]]. *)
Definition schemeChar (c : ascii) : bool :=
  negb (bool_decide (c ∈ [":"; "/"; "?"; "#"]%char)).

(** A string made of characters other than [: / ? #] only. *)
Fixpoint schemeChars (s : string) : bool :=
  match s with
  | String c s' => schemeChar c && schemeChars s'
  | EmptyString => true
  end.

(** The longest run of [[^:/?#]] at the start is skipped. *)
Fixpoint afterSchemeChars (s : string) : string :=
  match s with
  | String c s' => if schemeChar c then afterSchemeChars s' else s
  | EmptyString => EmptyString
  end.

(** [/^[^:/?#]+:\/\//.test(uri)] (line 80): one or more characters other
    than [: / ? #], then [://]. As the run cannot hold a colon, the match
    can only be the longest run followed by [://]. *)
Definition hasScheme (uri : string) : bool :=
  match uri with
  | String c _ => schemeChar c && String.prefix "://" (afterSchemeChars uri)
  | EmptyString => false
  end.

(** What the collector of an extension receives; the constructors are
    named after the keys of the messages. *)
Inductive Diagnostic (URI : Type) :=
| invalid_jsonValidation
| invalid_fileMatch
| invalid_url
| invalid_path_1 (location : URI)
| invalid_url_fileschema (message : string)
| invalid_url_schema.
Arguments invalid_jsonValidation {URI}.
Arguments invalid_fileMatch {URI}.
Arguments invalid_url {URI}.
Arguments invalid_path_1 {URI} location.
Arguments invalid_url_fileschema {URI} message.
Arguments invalid_url_schema {URI}.

(** [invalid_path_1] is a warning, the others are errors. *)
Definition isError {URI} (d : Diagnostic URI) : bool :=
  match d with invalid_path_1 _ => false | _ => true end.

Section Handler.

Variable URI : Type.
Variable joinPath : URI → string → string + URI.
Variable isEqualOrParent : URI → URI → bool.

(** The body of the [forEach] of lines 61-84 for one contributed item:
    [None] when reading a property of the item throws (the item is
    undefined or [null]), else the diagnostics it reports. *)
Definition checkItem (extensionLocation : URI) (item : Value)
    : option (list (Diagnostic URI)) :=
  match item with
  | VUndefined | VNull => None
  | _ =>
      let (fileMatch, url) :=
        match item with
        | VObject fileMatch url => (fileMatch, url)
        | _ => (VUndefined, VUndefined)
        end in
      Some
        (if negb (isString fileMatch)
            && negb (match fileMatch with
                     | VArray patterns => forallb isString patterns
                     | _ => false
                     end)
         then [invalid_fileMatch]
         else
           match url with
           | VString uri =>
               if String.prefix "./" uri then
                 match joinPath extensionLocation uri with
                 | inr colorThemeLocation =>
                     if negb (isEqualOrParent colorThemeLocation
                                extensionLocation)
                     then [invalid_path_1 colorThemeLocation]
                     else []
                 | inl message => [invalid_url_fileschema message]
                 end
               else if negb (hasScheme uri) then [invalid_url_schema]
               else []
           | _ => [invalid_url]
           end)
  end.

(** [extensionValue.forEach(...)]: the diagnostics of the items gone
    through, and whether an item made it throw. *)
Fixpoint checkItems (extensionLocation : URI) (items : list Value)
    : list (Diagnostic URI) * bool :=
  match items with
  | [] => ([], false)
  | item :: items' =>
      match checkItem extensionLocation item with
      | None => ([], true)
      | Some ds =>
          let (ds', threw) := checkItems extensionLocation items' in
          (ds ++ ds', threw)
      end
  end.

(** An extension as the handler sees it: its contributed value and its
    location. *)
Record Extension := {
  value : Value;
  extensionLocation : URI
}.

(** The handler (lines 51-86): what the collector of each extension has
    received when the handler is left, and whether it was left by an
    exception. The [return] of line 59 leaves the handler, not the
    iteration. *)
Fixpoint handler (extensions : list Extension)
    : list (list (Diagnostic URI)) * bool :=
  match extensions with
  | [] => ([], false)
  | extension :: extensions' =>
      match value extension with
      | VArray items =>
          let (ds, threw) :=
            checkItems (extensionLocation extension) items in
          if threw then (ds :: ((λ _, []) <$> extensions'), true)
          else
            let (rest, threw') := handler extensions' in
            (ds :: rest, threw')
      | _ =>
          ([invalid_jsonValidation] :: ((λ _, []) <$> extensions'), false)
      end
  end.

(** An extension whose value is an array that is gone through without an
    exception, with what its collector receives. *)
Definition checked (extension : Extension)
    (ds : list (Diagnostic URI)) : Prop :=
  ∃ items, value extension = VArray items
    ∧ checkItems (extensionLocation extension) items = (ds, false).

End Handler.

(** One contribution in a manifest, as [render] reads it:
    [fileMatch: string | string[]] and [url]. *)
Record Contribution := {
  c_fileMatch : string + list string;
  c_url : string
}.

(** [Array.prototype.join] with the separator [', ']. *)
Definition join (parts : list string) : string :=
  String.concat ", " parts.

(** [shouldRender] (lines 95-97): [!!manifest.contributes?.jsonValidation];
    the argument is the property, [None] when absent. An array is truthy
    even when empty. *)
Definition shouldRender (jsonValidation : option (list Contribution))
    : bool :=
  match jsonValidation with Some _ => true | None => false end.

(** [render] (lines 99-124): headers and rows. *)
Definition render (jsonValidation : option (list Contribution))
    : list string * list (list IRowData) :=
  let contrib := default [] jsonValidation in
  match contrib with
  | [] => ([], [])
  | _ =>
      (["File Match"; "Schema"],
       (λ v, [Code (match c_fileMatch v with
                    | inr patterns => join patterns
                    | inl pattern => pattern
                    end);
              Text (c_url v)]) <$> contrib)
  end.

End JsonValidation.

(** * The codeActions extension point

    The table renderer of the feature (the file of the repository that
    declares [CodeActionsExtensionPoint]). [String.prototype.localeCompare]
    depends on the locale and is a parameter; [Array.prototype.sort] is
    stable, and is given as the insertion of each element before the first
    one it does not have to follow. *)
Module CodeActions.

(** [ContributedCodeAction]. *)
Record ContributedCodeAction := {
  kind : string;
  title : string;
  description : option string
}.

(** [CodeActionsExtensionPoint]. *)
Record CodeActionsExtensionPoint := {
  languages : list string;
  actions : list ContributedCodeAction
}.

(** An element of [flatActions] (lines 88-90):
    [{ ...action, languages: contribution.languages }]. *)
Record FlatAction := {
  action : ContributedCodeAction;
  actionLanguages : list string
}.

Definition flatActions (codeActions : list CodeActionsExtensionPoint)
    : list FlatAction :=
  contribution ← codeActions;
  (λ a, {| action := a; actionLanguages := languages contribution |})
    <$> actions contribution.

Section Render.

Variable localeCompare : string → string → Z.

(** The comparison function of line 99. *)
Definition compareFn (a b : FlatAction) : Z :=
  localeCompare (title (action a)) (title (action b)).

(** [a] goes before the first element it does not have to follow. *)
Fixpoint insertSorted (a : FlatAction) (sorted : list FlatAction)
    : list FlatAction :=
  match sorted with
  | [] => [a]
  | b :: rest =>
      if bool_decide (0 < compareFn a b)
      then b :: insertSorted a rest
      else a :: sorted
  end.

(** [flatActions.sort(compareFn)]. *)
Definition sort (l : list FlatAction) : list FlatAction :=
  foldr insertSorted [] l.

(** The row of an action (lines 100-107). *)
Definition row (a : FlatAction) : list IRowData :=
  [ Text (title (action a));
    Code (kind (action a));
    Text (default "" (description (action a)));
    CodeList (actionLanguages a) ].

(** [shouldRender] (lines 78-80), on the property of the manifest. *)
Definition shouldRender (codeActions : option (list CodeActionsExtensionPoint))
    : bool :=
  match codeActions with Some _ => true | None => false end.

(** [render] (lines 82-116): headers and rows. *)
Definition render (codeActions : option (list CodeActionsExtensionPoint))
    : list string * list (list IRowData) :=
  match default [] codeActions with
  | [] => ([], [])
  | contributions =>
      (["Title"; "Kind"; "Description"; "Languages"],
       row <$> sort (flatActions contributions))
  end.

End Render.

End CodeActions.

(** * Properties *)

(** ** Running the monad *)

Lemma bind_run {A B} (m : M A) (k : A → M B) (s : Service) :
  (m ≫= k) s =
  match m s with
  | (Returned a, s') => k a s'
  | (Thrown msg, s') => (Thrown msg, s')
  end.
Proof. reflexivity. Qed.

Lemma ret_run {A} (a : A) (s : Service) : (mret a : M A) s = (Returned a, s).
Proof. reflexivity. Qed.

Ltac runM :=
  repeat first
    [ rewrite bind_run
    | rewrite ret_run
    | progress unfold gets, modify, throw
    | progress cbn beta iota ].

Ltac fields :=
  cbn [registry extensionFeaturesState storageService onDidChangeEnablement
       onDidChangeAccessData with_state with_storage with_enablement_fired
       with_accessData_fired] in *.

Lemma with_state_id (s : Service) : with_state (extensionFeaturesState s) s = s.
Proof. by destruct s. Qed.

(** ** The two-level map *)

Lemma lookupState_ensured_eq m extension featureId :
  lookupState (ensured m extension featureId) extension featureId
  = Some (default newFeatureState (lookupState m extension featureId)).
Proof.
  unfold ensured.
  destruct (lookupState m extension featureId) as [fs|] eqn:Hl; [done|].
  unfold lookupState. rewrite lookup_insert_eq. cbn. by rewrite lookup_insert_eq.
Qed.

Lemma lookupState_ensured_ne m extension featureId extension' featureId' :
  extension' ≠ extension ∨ featureId' ≠ featureId →
  lookupState (ensured m extension featureId) extension' featureId'
  = lookupState m extension' featureId'.
Proof.
  intros Hne. unfold ensured.
  destruct (lookupState m extension featureId) as [fs|] eqn:Hl; [done|].
  unfold lookupState in *.
  destruct (decide (extension' = extension)) as [->|He].
  - rewrite lookup_insert_eq. cbn.
    destruct Hne as [?|Hf]; [done|]. rewrite lookup_insert_ne by done.
    by destruct (m !! extension).
  - by rewrite lookup_insert_ne.
Qed.

Lemma lookupState_alter_eq m extension featureId g :
  lookupState (alter (alter g featureId) extension m) extension featureId
  = g <$> lookupState m extension featureId.
Proof.
  unfold lookupState. rewrite lookup_alter_eq.
  destruct (m !! extension) as [extensionState|]; cbn; [|done].
  by rewrite lookup_alter_eq.
Qed.

Lemma lookupState_alter_ne m extension featureId extension' featureId' g :
  extension' ≠ extension ∨ featureId' ≠ featureId →
  lookupState (alter (alter g featureId) extension m) extension' featureId'
  = lookupState m extension' featureId'.
Proof.
  intros Hne. unfold lookupState.
  destruct (decide (extension' = extension)) as [->|He].
  - rewrite lookup_alter_eq.
    destruct (m !! extension) as [extensionState|]; cbn; [|done].
    destruct Hne as [?|Hf]; [done|]. by rewrite lookup_alter_ne.
  - by rewrite lookup_alter_ne.
Qed.

Lemma getAndSet_run extension featureId s :
  getAndSetIfNotExistsExtensionFeatureState extension featureId s =
  (Returned (default newFeatureState (stateOf s extension featureId)),
   with_state (ensured (extensionFeaturesState s) extension featureId) s).
Proof.
  unfold getAndSetIfNotExistsExtensionFeatureState, ensured, stateOf, lookupState.
  runM.
  destruct (extensionFeaturesState s !! extension) as [extensionState|] eqn:He;
    runM; cbn.
  - destruct (extensionState !! featureId) eqn:Hf; runM; cbn.
    + by rewrite with_state_id.
    + done.
  - rewrite lookup_empty. runM. cbn. by rewrite insert_insert_eq.
Qed.


Lemma ensured_present m extension featureId :
  is_Some (lookupState m extension featureId) →
  ensured m extension featureId = m.
Proof. intros [fs Hfs]. unfold ensured. by rewrite Hfs. Qed.

Lemma ensured_idem m extension featureId :
  ensured (ensured m extension featureId) extension featureId
  = ensured m extension featureId.
Proof.
  apply ensured_present. rewrite lookupState_ensured_eq. by eexists.
Qed.

(** ** Observations of the state a method leaves *)

Lemma stateOf_with_state m s extension featureId :
  stateOf (with_state m s) extension featureId
  = lookupState m extension featureId.
Proof. reflexivity. Qed.

Lemma disabledOf_Some s extension featureId d :
  disabledOf s extension featureId = Some d →
  ∃ fs, stateOf s extension featureId = Some fs ∧ disabled fs = Some d.
Proof.
  unfold disabledOf. destruct (stateOf s extension featureId) as [fs|]; [|done].
  cbn. eauto.
Qed.

Lemma setEnablement_spec extension featureId enabled s d :
  registry s !! featureId = Some d →
  ∃ s', setEnablement extension featureId enabled s = (Returned tt, s')
    ∧ registry s' = registry s
    ∧ stateOf s' extension featureId
      = Some (assignDisabled (negb enabled)
                (default newFeatureState (stateOf s extension featureId)))
    ∧ (∀ extension' featureId',
         extension' ≠ extension ∨ featureId' ≠ featureId →
         stateOf s' extension' featureId' = stateOf s extension' featureId')
    ∧ onDidChangeAccessData s' = onDidChangeAccessData s
    ∧ if bool_decide (disabledOf s extension featureId = Some (negb enabled))
      then s' = s
      else onDidChangeEnablement s'
           = onDidChangeEnablement s
             ++ [{| ee_extension := extension; ee_featureId := featureId;
                    ee_enabled := enabled |}]
           ∧ storageService s' = Json (persisted (extensionFeaturesState s')).
Proof.
  intros Hreg. unfold setEnablement, getExtensionFeature. runM.
  rewrite Hreg. runM. rewrite getAndSet_run. runM.
  case_bool_decide as Hd.
  - (* the stored flag differs: assign, fire, save *)
    unfold updateFeatureState, fireEnablement, saveState. runM.
    eexists. split; [reflexivity|]. unfold stateOf. fields.
    rewrite lookupState_alter_eq, lookupState_ensured_eq.
    repeat split; try done.
    + intros e' f' Hne.
      by rewrite lookupState_alter_ne, lookupState_ensured_ne.
    + rewrite bool_decide_eq_false_2; [done|].
      intros Hd'. apply Hd. unfold disabledOf in Hd'.
      by destruct (stateOf s extension featureId).
  - (* the stored flag is already the requested one: nothing happens *)
    destruct (stateOf s extension featureId) as [fs|] eqn:Hfs; [|done].
    cbn in Hd. rewrite ensured_present by (unfold stateOf in Hfs; by eexists).
    rewrite with_state_id. eexists. split; [reflexivity|].
    rewrite Hfs. cbn. repeat split; try done.
    + f_equal. destruct fs as [dd ad]. cbn in *. by subst.
    + rewrite bool_decide_eq_true_2; [done|]. unfold disabledOf.
      by rewrite Hfs.
Qed.

Lemma isEnabled_run extension featureId s :
  isEnabled extension featureId s =
  (Returned
     (match registry s !! featureId with
      | None => false
      | Some _ => negb (default false (disabledOf s extension featureId))
      end), s).
Proof.
  unfold isEnabled, getExtensionFeature, getExtensionFeatureState. runM.
  by destruct (registry s !! featureId).
Qed.

Lemma getAccessData_run extension featureId s :
  getAccessData extension featureId s =
  (Returned
     (match registry s !! featureId with
      | None => None
      | Some _ => accessData <$> stateOf s extension featureId
      end), s).
Proof.
  unfold getAccessData, getExtensionFeature, getExtensionFeatureState. runM.
  by destruct (registry s !! featureId).
Qed.

Lemma getEnablementData_run featureId s :
  (getEnablementData featureId s).2 = s.
Proof.
  unfold getEnablementData, getExtensionFeature. runM.
  by destruct (registry s !! featureId).
Qed.

Lemma recordAccess_spec extension featureId now s fs :
  stateOf s extension featureId = Some fs →
  ∃ s', recordAccess extension featureId now s = (Returned true, s')
    ∧ registry s' = registry s
    ∧ stateOf s' extension featureId
      = Some (incrementTotalCount (assignCurrentOnAccess now fs))
    ∧ (∀ extension' featureId',
         extension' ≠ extension ∨ featureId' ≠ featureId →
         stateOf s' extension' featureId' = stateOf s extension' featureId')
    ∧ onDidChangeEnablement s' = onDidChangeEnablement s
    ∧ onDidChangeAccessData s'
      = onDidChangeAccessData s
        ++ [{| ad_extension := extension; ad_featureId := featureId;
               ad_accessData := Some (accessData
                 (incrementTotalCount (assignCurrentOnAccess now fs))) |}]
    ∧ storageService s' = Json (persisted (extensionFeaturesState s')).
Proof.
  intros Hfs. unfold recordAccess, updateFeatureState, saveState, deref,
    fireAccessData. runM.
  eexists. split; [reflexivity|]. unfold stateOf in *. fields.
  rewrite !lookupState_alter_eq, Hfs.
  repeat split; try done.
  intros e' f' Hne. by rewrite !lookupState_alter_ne.
Qed.

Lemma getAccess_disabled extension featureId now confirmed s d :
  registry s !! featureId = Some d →
  disabledOf s extension featureId = Some true →
  getAccess extension featureId now confirmed s = (Returned false, s).
Proof.
  intros Hreg Hd. unfold getAccess, getExtensionFeature. runM.
  rewrite Hreg. runM. rewrite getAndSet_run. runM.
  destruct (disabledOf_Some _ _ _ _ Hd) as (fs & Hfs & Hdis).
  rewrite ensured_present by (unfold stateOf in Hfs; by eexists).
  rewrite Hfs, with_state_id. cbn. by rewrite Hdis.
Qed.

Lemma getAccess_enabled extension featureId now confirmed s d :
  registry s !! featureId = Some d →
  disabledOf s extension featureId = Some false →
  getAccess extension featureId now confirmed s
  = recordAccess extension featureId now s.
Proof.
  intros Hreg Hd. unfold getAccess, getExtensionFeature. runM.
  rewrite Hreg. runM. rewrite getAndSet_run. runM.
  destruct (disabledOf_Some _ _ _ _ Hd) as (fs & Hfs & Hdis).
  rewrite ensured_present by (unfold stateOf in Hfs; by eexists).
  rewrite Hfs, with_state_id. cbn. by rewrite Hdis.
Qed.

Lemma setEnablement_ensured extension featureId enabled s d :
  registry s !! featureId = Some d →
  setEnablement extension featureId enabled
    (with_state (ensured (extensionFeaturesState s) extension featureId) s)
  = setEnablement extension featureId enabled s.
Proof.
  intros Hreg. unfold setEnablement, getExtensionFeature. runM. fields.
  rewrite Hreg. runM.
  rewrite !getAndSet_run. runM. unfold stateOf. fields.
  rewrite ensured_idem, lookupState_ensured_eq.
  change (default newFeatureState (Some ?x)) with x.
  case_bool_decide; [|done].
  unfold updateFeatureState, fireEnablement, saveState. runM. fields.
  reflexivity.
Qed.

Lemma getAccess_undecided extension featureId now confirmed s d :
  registry s !! featureId = Some d →
  disabledOf s extension featureId = None →
  getAccess extension featureId now confirmed s
  = if confirmed
    then recordAccess extension featureId now
           (setEnablement extension featureId true s).2
    else (Returned false, (setEnablement extension featureId false s).2).
Proof.
  intros Hreg Hd. unfold getAccess, getExtensionFeature. runM.
  rewrite Hreg. runM. rewrite getAndSet_run. runM.
  assert (disabled (default newFeatureState (stateOf s extension featureId))
          = None) as ->.
  { unfold disabledOf in Hd. by destruct (stateOf s extension featureId). }
  rewrite bind_run, (setEnablement_ensured _ _ _ _ d Hreg).
  destruct (setEnablement_spec extension featureId confirmed s d Hreg)
    as (s' & Hrun & _).
  destruct confirmed; by rewrite Hrun.
Qed.

Lemma getAccess_unregistered extension featureId now confirmed s :
  registry s !! featureId = None →
  getAccess extension featureId now confirmed s = (Returned false, s).
Proof.
  intros Hreg. unfold getAccess, getExtensionFeature. runM. by rewrite Hreg.
Qed.

Lemma setStatus_spec extension featureId st s d :
  registry s !! featureId = Some d →
  ∃ s', setStatus extension featureId st s = (Returned tt, s')
    ∧ registry s' = registry s
    ∧ stateOf s' extension featureId
      = Some (assignCurrentOnStatus st
                (default newFeatureState (stateOf s extension featureId)))
    ∧ (∀ extension' featureId',
         extension' ≠ extension ∨ featureId' ≠ featureId →
         stateOf s' extension' featureId' = stateOf s extension' featureId')
    ∧ onDidChangeEnablement s' = onDidChangeEnablement s
    ∧ onDidChangeAccessData s'
      = onDidChangeAccessData s
        ++ [{| ad_extension := extension; ad_featureId := featureId;
               ad_accessData := Some (accessData
                 (assignCurrentOnStatus st
                    (default newFeatureState
                       (stateOf s extension featureId)))) |}]
    ∧ storageService s' = storageService s.
Proof.
  intros Hreg. unfold setStatus, getExtensionFeature. runM.
  rewrite Hreg. runM. rewrite getAndSet_run. runM.
  unfold updateFeatureState. runM. rewrite getAccessData_run. runM.
  unfold fireAccessData. runM. fields. rewrite Hreg.
  eexists. split; [reflexivity|]. unfold stateOf. fields.
  rewrite lookupState_alter_eq, lookupState_ensured_eq.
  repeat split; try done.
  intros e' f' Hne. by rewrite lookupState_alter_ne, lookupState_ensured_ne.
Qed.

(** ** Stored values *)

Lemma storedOf_persisted m extension featureId :
  storedOf (Json (persisted m)) extension featureId
  = persistFeature <$> lookupState m extension featureId.
Proof.
  unfold storedOf, persisted, lookupState. rewrite lookup_fmap.
  destruct (m !! extension) as [extensionState|]; cbn; [|done].
  by rewrite lookup_fmap.
Qed.

Lemma lookupState_restored stored extension featureId :
  lookupState (restored stored) extension featureId
  = restoreFeature <$> storedOf stored extension featureId.
Proof.
  unfold storedOf, restored, lookupState.
  destruct stored as [| |data]; [by rewrite lookup_empty..|].
  rewrite lookup_fmap.
  destruct (data !! extension) as [extensionFeatures|]; cbn; [|done].
  by rewrite lookup_fmap.
Qed.


(** ** One call, one record *)

Lemma other_pair (e f e0 f0 : string) :
  ¬ (e0 = e ∧ f0 = f) → e ≠ e0 ∨ f ≠ f0.
Proof.
  intros Hne. destruct (decide (e = e0)) as [->|]; [|by left].
  right. intros ->. by apply Hne.
Qed.

Lemma exec_recordStep (c : Call) (s : Service) (extension featureId : string) :
  local c →
  RecordStep (stateOf s extension featureId)
    (stateOf (exec c s).2 extension featureId)
    (granted extension featureId c (exec c s).1).
Proof.
  intros Hlocal.
  destruct c as [e0 f0|e0 f0 enabled|f0|e0 f0 now confirmed|e0 f0|e0 f0 st
                 |stored|]; cbn [exec]; try done.
  - (* isEnabled *)
    rewrite bind_run, isEnabled_run. constructor.
  - (* setEnablement *)
    rewrite bind_run.
    destruct (registry s !! f0) as [d|] eqn:Hreg.
    + destruct (setEnablement_spec e0 f0 enabled s d Hreg)
        as (s' & -> & _ & Hst & Hother & _). cbn.
      destruct (decide (e0 = extension ∧ f0 = featureId)) as [[-> ->]|Hne].
      * rewrite Hst. constructor.
      * rewrite Hother by (by apply other_pair). constructor.
    + unfold setEnablement, getExtensionFeature. runM. rewrite Hreg. runM.
      constructor.
  - (* getEnablementData *)
    rewrite bind_run.
    pose proof (getEnablementData_run f0 s) as Hrun.
    destruct (getEnablementData f0 s) as [[l|msg] s']; cbn in *; subst;
      constructor.
  - (* getAccess *)
    rewrite bind_run.
    destruct (registry s !! f0) as [d|] eqn:Hreg;
      [|rewrite getAccess_unregistered by done; constructor].
    destruct (disabledOf s e0 f0) as [[|]|] eqn:Hd.
    + rewrite (getAccess_disabled _ _ _ _ _ d) by done. constructor.
    + rewrite (getAccess_enabled _ _ _ _ _ d) by done.
      destruct (disabledOf_Some _ _ _ _ Hd) as (fs & Hfs & Hdis).
      destruct (recordAccess_spec e0 f0 now s fs Hfs)
        as (s' & -> & _ & Hst & Hother & _). cbn.
      case_bool_decide as Heq.
      * destruct Heq as [-> ->]. rewrite Hst, Hfs. by constructor.
      * rewrite Hother by (by apply other_pair). constructor.
    + rewrite (getAccess_undecided _ _ _ _ _ d) by done.
      destruct (setEnablement_spec e0 f0 confirmed s d Hreg)
        as (s1 & Hrun1 & _ & Hst1 & Hother1 & _).
      destruct confirmed; rewrite Hrun1; cbn [fst snd].
      * destruct (recordAccess_spec e0 f0 now s1 _ Hst1)
          as (s2 & -> & _ & Hst2 & Hother2 & _). cbn.
        case_bool_decide as Heq.
        -- destruct Heq as [-> ->]. rewrite Hst2. by constructor.
        -- rewrite Hother2, Hother1 by (by apply other_pair). constructor.
      * cbn. destruct (decide (e0 = extension ∧ f0 = featureId))
          as [[-> ->]|Hne].
        -- rewrite Hst1. constructor.
        -- rewrite Hother1 by (by apply other_pair). constructor.
  - (* getAccessData *)
    rewrite bind_run, getAccessData_run. constructor.
  - (* setStatus *)
    rewrite bind_run.
    destruct (registry s !! f0) as [d|] eqn:Hreg.
    + destruct (setStatus_spec e0 f0 st s d Hreg)
        as (s' & -> & _ & Hst & Hother & _). cbn.
      destruct (decide (e0 = extension ∧ f0 = featureId)) as [[-> ->]|Hne].
      * rewrite Hst. constructor.
      * rewrite Hother by (by apply other_pair). constructor.
    + unfold setStatus, getExtensionFeature. runM. rewrite Hreg. runM.
      constructor.
  - (* the service's own write *)
    constructor.
Qed.

(** ** The storage listener *)

Lemma forEach_spec {A} (xs : list A) (body : A → M unit) (I : Service → Prop) :
  (∀ x s, I s → ∃ s', body x s = (Returned tt, s') ∧ I s') →
  ∀ s, I s → ∃ s', forEach xs body s = (Returned tt, s') ∧ I s'.
Proof.
  intros Hbody. induction xs as [|x xs IH]; intros s Hs; cbn [forEach].
  - by exists s.
  - rewrite bind_run. destruct (Hbody x s Hs) as (s1 & -> & Hs1).
    by apply IH.
Qed.

(** The listener replaces the state map by what is stored and otherwise
    only fires events. *)
Lemma onDidStorageChange_external (s : Service) :
  ∃ s', onDidStorageChange true s = (Returned tt, s')
    ∧ registry s' = registry s
    ∧ extensionFeaturesState s' = restored (storageService s)
    ∧ storageService s' = storageService s.
Proof.
  unfold onDidStorageChange, loadState. runM.
  set (fires := λ s' : Service,
         registry s' = registry s
         ∧ extensionFeaturesState s' = restored (storageService s)
         ∧ storageService s' = storageService s).
  assert (∀ (b : bool) (e : EnablementEvent) s0, fires s0 →
            ∃ s', when b (fireEnablement e) s0 = (Returned tt, s') ∧ fires s')
    as Hen.
  { intros [] e s0 Hs0; eexists; (split; [reflexivity|]); [|done].
    destruct Hs0 as (? & ? & ?). by repeat split. }
  assert (∀ (b : bool) (e : AccessDataEvent) s0, fires s0 →
            ∃ s', when b (fireAccessData e) s0 = (Returned tt, s') ∧ fires s')
    as Hacc.
  { intros [] e s0 Hs0; eexists; (split; [reflexivity|]); [|done].
    destruct Hs0 as (? & ? & ?). by repeat split. }
  apply (forEach_spec _ _ fires); [|done].
  intros extensionId s0 Hs0.
  apply (forEach_spec _ _ fires); [|done].
  intros featureId s1 Hs1.
  rewrite bind_run, isEnabled_run. cbn beta iota. rewrite bind_run.
  edestruct Hen as (s2 & -> & Hs2); [exact Hs1|].
  rewrite bind_run, getAccessData_run. cbn beta iota.
  by apply Hacc.
Qed.

Lemma exec_ExternalWrite (stored : StoredValue) (s : Service)
    (extension featureId : string) :
  (exec (ExternalWrite stored) s).1 = Returned VUnit
  ∧ registry (exec (ExternalWrite stored) s).2 = registry s
  ∧ storageService (exec (ExternalWrite stored) s).2 = stored
  ∧ stateOf (exec (ExternalWrite stored) s).2 extension featureId
    = restoreFeature <$> storedOf stored extension featureId.
Proof.
  cbn [exec]. runM.
  destruct (onDidStorageChange_external (with_storage stored s))
    as (s' & -> & Hreg & Hst & Hsto). runM. cbn [fst snd].
  unfold stateOf. rewrite Hst, Hreg, Hsto. fields.
  by rewrite lookupState_restored.
Qed.

(** ** Unknown features *)

(** C7. On an unregistered feature id the reading methods do not throw and
    give fixed answers, whatever the state: [isEnabled] returns false,
    [getAccessData] returns undefined, [getAccess] returns false; none of
    them changes the service, so no record is created. *)
Theorem unregistered_reads (s : Service) (extension featureId : string)
    (now : Z) (confirmed : bool) :
  registry s !! featureId = None →
  isEnabled extension featureId s = (Returned false, s)
  ∧ getAccessData extension featureId s = (Returned None, s)
  ∧ getAccess extension featureId now confirmed s = (Returned false, s).
Proof.
  intros Hreg. rewrite isEnabled_run, getAccessData_run, Hreg.
  by rewrite getAccess_unregistered.
Qed.

Lemma unregistered_reads_witness :
  let s := newService repoRegistry
             (Json {[ "pub.ext" := {[ "chat" := {| p_disabled := Some false;
                                                   accessCount := 3 |} ]} ]}) in
  isEnabled "pub.ext" "chat" s = (Returned false, s)
  ∧ getAccessData "pub.ext" "chat" s = (Returned None, s)
  ∧ getAccess "pub.ext" "chat" 1000 true s = (Returned false, s).
Proof.
  intros s. apply (unregistered_reads s "pub.ext" "chat" 1000 true).
  vm_compute. reflexivity.
Defined.

(** C8. On an unregistered feature id [setEnablement] and [setStatus] throw
    the error naming the unknown feature, and leave the state map, the
    stored value and both event streams as they were. *)
Theorem unregistered_writes (s : Service) (extension featureId : string)
    (enabled : bool) (st : option Status) :
  registry s !! featureId = None →
  setEnablement extension featureId enabled s
    = (Thrown (noFeature featureId), s)
  ∧ setStatus extension featureId st s = (Thrown (noFeature featureId), s).
Proof.
  intros Hreg. unfold setEnablement, setStatus, getExtensionFeature. runM.
  by rewrite Hreg.
Qed.

Lemma unregistered_writes_witness :
  let s := newService repoRegistry NoValue in
  setEnablement "pub.ext" "chat" true s
    = (Thrown "No feature with id 'chat'", s)
  ∧ setStatus "pub.ext" "chat" None s
    = (Thrown "No feature with id 'chat'", s).
Proof.
  intros s. apply (unregistered_writes s "pub.ext" "chat" true None).
  vm_compute. reflexivity.
Defined.

(** ** Reading and status updates *)

Lemma run_isEnabled_replicate (n : nat) (s : Service)
    (extension featureId : string) :
  run (replicate n (IsEnabled extension featureId)) s = s.
Proof.
  induction n as [|n IH]; [done|].
  cbn [replicate]. unfold run in *. cbn [foldl]. unfold exec at 2.
  rewrite bind_run, isEnabled_run. runM. exact IH.
Qed.

(** C10. [isEnabled] and [getAccessData] only observe: they leave the
    service (state map, stored value, event streams) exactly as it was, and
    a pair without a record still has no access data after any number of
    [isEnabled] calls. [setStatus] on a registered feature does create the
    record of such a pair, with [totalCount] 0 and a current part whose
    [count] and [lastAccessed] are 0, so [getAccessData] is defined from
    then on although no access was granted. *)
Theorem reads_observe_setStatus_creates (s : Service)
    (extension featureId : string) :
  (isEnabled extension featureId s).2 = s
  ∧ (getAccessData extension featureId s).2 = s
  ∧ (stateOf s extension featureId = None →
     ∀ n : nat,
       (getAccessData extension featureId
          (run (replicate n (IsEnabled extension featureId)) s)).1
       = Returned None)
  ∧ (stateOf s extension featureId = None →
     is_Some (registry s !! featureId) →
     ∀ st : option Status,
       (getAccessData extension featureId
          (setStatus extension featureId st s).2).1
       = Returned (Some {| totalCount := 0;
                           current := Some {| count := 0; lastAccessed := 0;
                                              status := st |} |})
       ∧ totalOf (setStatus extension featureId st s).2 extension featureId
         = 0).
Proof.
  rewrite isEnabled_run, getAccessData_run.
  split; [done|]. split; [done|]. split.
  - intros Hnone n. rewrite run_isEnabled_replicate, getAccessData_run.
    cbn [fst]. rewrite Hnone. by destruct (registry s !! featureId).
  - intros Hnone [d Hreg] st.
    destruct (setStatus_spec extension featureId st s d Hreg)
      as (s' & Hrun & Hreg' & Hst & _).
    rewrite Hrun, getAccessData_run. cbn [fst snd].
    unfold totalOf. by rewrite Hreg', Hreg, Hst, Hnone.
Qed.

Lemma reads_observe_setStatus_creates_witness :
  let s := newService repoRegistry NoValue in
  (getAccessData "pub.ext" "codeActions"
     (run (replicate 3 (IsEnabled "pub.ext" "codeActions")) s)).1
  = Returned None
  ∧ (getAccessData "pub.ext" "codeActions"
       (setStatus "pub.ext" "codeActions" None s).2).1
    = Returned (Some {| totalCount := 0;
                        current := Some {| count := 0; lastAccessed := 0;
                                           status := None |} |}).
Proof.
  intros s.
  destruct (reads_observe_setStatus_creates s "pub.ext" "codeActions")
    as (_ & _ & Hreads & Hstatus).
  split.
  - apply Hreads. vm_compute. reflexivity.
  - apply Hstatus; [vm_compute; reflexivity | vm_compute; eauto].
Defined.

(** C6. [setStatus] on a registered feature changes the pair's record in
    its [current.status] only: the [disabled] flag and [totalCount] stay,
    [count] and [lastAccessed] stay (0 when there was no current part), the
    records of all other pairs stay; it fires exactly one access-data event,
    carrying the updated access data, fires no enablement event and does not
    write to storage. *)
Theorem setStatus_frame (s : Service) (extension featureId : string)
    (st : option Status) (d : IExtensionFeatureDescriptor) :
  registry s !! featureId = Some d →
  let s' := (setStatus extension featureId st s).2 in
  let updated :=
    {| totalCount := totalOf s extension featureId;
       current := Some
         {| count :=
              default 0 (count <$> currentOf s extension featureId);
            lastAccessed :=
              default 0 (lastAccessed <$> currentOf s extension featureId);
            status := st |} |} in
  (setStatus extension featureId st s).1 = Returned tt
  ∧ stateOf s' extension featureId
    = Some {| disabled := disabledOf s extension featureId;
              accessData := updated |}
  ∧ (∀ extension' featureId',
       extension' ≠ extension ∨ featureId' ≠ featureId →
       stateOf s' extension' featureId' = stateOf s extension' featureId')
  ∧ onDidChangeAccessData s'
    = onDidChangeAccessData s
      ++ [{| ad_extension := extension; ad_featureId := featureId;
             ad_accessData := Some updated |}]
  ∧ onDidChangeEnablement s' = onDidChangeEnablement s
  ∧ storageService s' = storageService s
  ∧ registry s' = registry s.
Proof.
  intros Hreg.
  destruct (setStatus_spec extension featureId st s d Hreg)
    as (s' & Hrun & Hreg' & Hst & Hother & Hen & Hacc & Hsto).
  rewrite Hrun. cbn [fst snd].
  rewrite Hst, Hacc. unfold totalOf, currentOf, disabledOf.
  by destruct (stateOf s extension featureId).
Qed.

Lemma setStatus_frame_witness :
  let s := newService repoRegistry NoValue in
  let s' := (setStatus "pub.ext" "jsonValidation"
               (Some {| severity := Severity.Warning;
                        message := "quota nearly reached" |}) s).2 in
  onDidChangeEnablement s' = [] ∧ storageService s' = NoValue.
Proof.
  intros s s'.
  destruct (setStatus_frame s "pub.ext" "jsonValidation"
              (Some {| severity := Severity.Warning;
                       message := "quota nearly reached" |})
              {| label := "JSON Validation"; description := None;
                 canToggle := false |})
    as (_ & _ & _ & _ & Hen & Hsto & _).
  - vm_compute. reflexivity.
  - split; [exact Hen | exact Hsto].
Defined.

(** ** Persistence *)



(** ** The lifetime counter *)

Lemma run_cons (c : Call) (calls : list Call) (s : Service) :
  run (c :: calls) s = run calls (exec c s).2.
Proof. reflexivity. Qed.

Lemma run_snoc (calls : list Call) (c : Call) (s : Service) :
  run (calls ++ [c]) s = (exec c (run calls s)).2.
Proof. unfold run. by rewrite foldl_app. Qed.






(** ** The two steps of [getAccess] *)

Lemma getAccessBegin_decided extension featureId now confirmed s :
  registry s !! featureId = None
  ∨ is_Some (disabledOf s extension featureId) →
  getAccessBegin extension featureId now s
  = match getAccess extension featureId now confirmed s with
    | (Returned b, s') => (Returned (Some b), s')
    | (Thrown msg, s') => (Thrown msg, s')
    end.
Proof.
  intros Hcase. unfold getAccessBegin, getAccess, getExtensionFeature. runM.
  destruct (registry s !! featureId) as [d|] eqn:Hreg; runM; [|done].
  destruct Hcase as [|[b Hd]]; [done|].
  rewrite getAndSet_run. runM.
  destruct (disabledOf_Some _ _ _ _ Hd) as (fs & Hfs & Hdis).
  rewrite Hfs. cbn. rewrite Hdis.
  destruct b; runM; [done|].
  by destruct (recordAccess extension featureId now _) as [[?|?] ?].
Qed.

Lemma getAccessBegin_undecided extension featureId now s d :
  registry s !! featureId = Some d →
  disabledOf s extension featureId = None →
  getAccessBegin extension featureId now s
  = (Returned None,
     with_state (ensured (extensionFeaturesState s) extension featureId) s).
Proof.
  intros Hreg Hd. unfold getAccessBegin, getExtensionFeature. runM.
  rewrite Hreg. runM. rewrite getAndSet_run. runM.
  assert (disabled (default newFeatureState (stateOf s extension featureId))
          = None) as ->; [|done].
  unfold disabledOf in Hd. by destruct (stateOf s extension featureId).
Qed.

Lemma getAccessResume_ensured extension featureId now confirmed s d :
  registry s !! featureId = Some d →
  getAccessResume extension featureId now confirmed
    (with_state (ensured (extensionFeaturesState s) extension featureId) s)
  = getAccessResume extension featureId now confirmed s.
Proof.
  intros Hreg. unfold getAccessResume.
  by rewrite !bind_run, (setEnablement_ensured _ _ _ _ d Hreg).
Qed.

(** The call of [getAccess] during whose dialog nothing else runs is the
    first step followed at once by the second. *)
Lemma getAccess_begin_resume extension featureId now confirmed s :
  getAccess extension featureId now confirmed s
  = match getAccessBegin extension featureId now s with
    | (Returned (Some b), s') => (Returned b, s')
    | (Returned None, s') =>
        getAccessResume extension featureId now confirmed s'
    | (Thrown msg, s') => (Thrown msg, s')
    end.
Proof.
  destruct (registry s !! featureId) as [d|] eqn:Hreg.
  - destruct (disabledOf s extension featureId) as [b|] eqn:Hd.
    + rewrite (getAccessBegin_decided _ _ _ confirmed) by eauto.
      by destruct (getAccess extension featureId now confirmed s)
        as [[?|?] ?].
    + rewrite (getAccessBegin_undecided _ _ _ _ d) by done.
      unfold getAccess, getAccessResume, getExtensionFeature. runM.
      rewrite Hreg. runM. rewrite getAndSet_run. runM.
      assert (disabled (default newFeatureState
                          (stateOf s extension featureId)) = None) as ->;
        [|done].
      unfold disabledOf in Hd. by destruct (stateOf s extension featureId).
  - rewrite (getAccessBegin_decided _ _ _ confirmed) by eauto.
    by destruct (getAccess extension featureId now confirmed s) as [[?|?] ?].
Qed.

Lemma getAccessResume_spec extension featureId now confirmed s d :
  registry s !! featureId = Some d →
  getAccessResume extension featureId now confirmed s
  = (Returned confirmed,
     run (if confirmed
          then [SetEnablement extension featureId true;
                GetAccess extension featureId now true]
          else [SetEnablement extension featureId false]) s).
Proof.
  intros Hreg. unfold getAccessResume. rewrite bind_run.
  destruct (setEnablement_spec extension featureId confirmed s d Hreg)
    as (s1 & Hrun & Hreg1 & Hst1 & _).
  rewrite Hrun. destruct confirmed; cbn [run foldl exec].
  - rewrite !bind_run, Hrun. runM. cbn [snd].
    rewrite (getAccess_enabled _ _ _ _ _ d);
      [|by rewrite Hreg1|by unfold disabledOf; rewrite Hst1].
    destruct (recordAccess_spec extension featureId now s1 _ Hst1)
      as (s2 & -> & _). done.
  - rewrite !bind_run, Hrun. by runM.
Qed.

Lemma getAccessResume_unregistered extension featureId now confirmed s :
  registry s !! featureId = None →
  getAccessResume extension featureId now confirmed s
  = (Thrown (noFeature featureId), s).
Proof.
  intros Hreg. unfold getAccessResume, setEnablement, getExtensionFeature.
  runM. by rewrite Hreg.
Qed.

(** The event [Atomic (GetAccess ...)] is the call whose dialog is answered
    at once: it replies and leaves the service as the two steps do with
    nothing between them. *)
Lemma getAccess_uninterrupted (w : World) (extension featureId : string)
    (now : Z) (confirmed : bool) :
  let whole := step (Atomic (GetAccess extension featureId now confirmed)) w in
  let asked := step (Begin extension featureId now) w in
  match asked.1 with
  | Waiting call =>
      let answered := step (Answer call confirmed now) asked.2 in
      answered.1 = whole.1
      ∧ service answered.2 = service whole.2
      ∧ replaced answered.2 = replaced whole.2
  | reply => reply = whole.1 ∧ asked.2 = whole.2
  end.
Proof.
  cbn [step]. unfold atomic, begin. cbn [exec]. rewrite bind_run.
  rewrite getAccess_begin_resume.
  destruct (getAccessBegin extension featureId now (service w))
    as [[[b|]|msg] s']; cbn [fst snd]; [done| |done].
  unfold answer. cbn [suspended replaced service].
  rewrite lookup_insert_eq. cbn [su_map su_extension su_featureId].
  rewrite decide_True by done. cbn [fst snd service replaced with_service].
  by destruct (getAccessResume extension featureId now confirmed s')
    as [[?|?] ?].
Qed.

(** ** What the steps keep *)

Lemma exec_frame (c : Call) (s : Service) :
  registry (exec c s).2 = registry s
  ∧ (local c →
     storageService (exec c s).2 = storageService s
     ∨ storageService (exec c s).2
       = Json (persisted (extensionFeaturesState (exec c s).2))).
Proof.
  destruct c as [e0 f0|e0 f0 enabled|f0|e0 f0 now confirmed|e0 f0|e0 f0 st
                 |stored|]; cbn [exec local].
  - rewrite bind_run, isEnabled_run. auto.
  - rewrite bind_run.
    destruct (registry s !! f0) as [d|] eqn:Hreg.
    + destruct (setEnablement_spec e0 f0 enabled s d Hreg)
        as (s' & -> & Hreg' & _ & _ & _ & Hchg). cbn.
      split; [done|]. intros _.
      case_bool_decide; [left; by subst|right; apply Hchg].
    + unfold setEnablement, getExtensionFeature. runM. rewrite Hreg. runM.
      auto.
  - rewrite bind_run.
    pose proof (getEnablementData_run f0 s) as Hrun.
    destruct (getEnablementData f0 s) as [[l|msg] s']; cbn in *; subst; auto.
  - rewrite bind_run.
    destruct (registry s !! f0) as [d|] eqn:Hreg;
      [|rewrite getAccess_unregistered by done; auto].
    destruct (disabledOf s e0 f0) as [[|]|] eqn:Hd.
    + rewrite (getAccess_disabled _ _ _ _ _ d) by done. auto.
    + rewrite (getAccess_enabled _ _ _ _ _ d) by done.
      destruct (disabledOf_Some _ _ _ _ Hd) as (fs & Hfs & _).
      destruct (recordAccess_spec e0 f0 now s fs Hfs)
        as (s' & -> & Hreg' & _ & _ & _ & _ & Hsto). cbn. auto.
    + rewrite (getAccess_undecided _ _ _ _ _ d) by done.
      destruct (setEnablement_spec e0 f0 confirmed s d Hreg)
        as (s1 & Hrun1 & Hreg1 & Hst1 & _ & _ & Hchg).
      rewrite bool_decide_eq_false_2 in Hchg by (by rewrite Hd).
      destruct confirmed; rewrite Hrun1; cbn [fst snd].
      * destruct (recordAccess_spec e0 f0 now s1 _ Hst1)
          as (s2 & -> & Hreg2 & _ & _ & _ & _ & Hsto). cbn.
        split; [congruence|auto].
      * cbn. split; [done|]. intros _. right. apply Hchg.
  - rewrite bind_run, getAccessData_run. auto.
  - rewrite bind_run.
    destruct (registry s !! f0) as [d|] eqn:Hreg.
    + destruct (setStatus_spec e0 f0 st s d Hreg)
        as (s' & -> & Hreg' & _ & _ & _ & _ & Hsto). cbn. auto.
    + unfold setStatus, getExtensionFeature. runM. rewrite Hreg. runM. auto.
  - split; [|done].
    by destruct (exec_ExternalWrite stored s "" "") as (_ & ? & _).
  - auto.
Qed.

Lemma run_registry (calls : list Call) (s : Service) :
  registry (run calls s) = registry s.
Proof.
  revert s. induction calls as [|c calls IH]; intros s; [done|].
  rewrite run_cons, IH. apply exec_frame.
Qed.

Lemma recordStep_uncounted o o' g :
  RecordStep o o' g → uncounted o → uncounted o'.
Proof.
  unfold uncounted.
  intros Hstep. destruct Hstep as [o|o d|o st|fs now Hd|o now Hd];
    intros Hfresh; cbn; try done.
  - destruct o as [fs|]; cbn in *; [|done].
    intros Hd. destruct (Hfresh Hd) as [-> ->]. done.
  - by rewrite Hd.
Qed.

Lemma recordStep_sameCounts o o' :
  RecordStep o o' false → sameCounts o o'.
Proof.
  intros Hstep. remember false as g eqn:Hg.
  destruct Hstep as [o|o d|o st|fs now Hd|o now Hd]; try discriminate;
    unfold sameCounts; (split; [by eauto|]); by destruct o.
Qed.

Lemma sameCounts_refl o : sameCounts o o.
Proof. by unfold sameCounts. Qed.

Lemma sameCounts_trans o1 o2 o3 :
  sameCounts o1 o2 → sameCounts o2 o3 → sameCounts o1 o3.
Proof.
  unfold sameCounts. intros (Hs & Ht & Hc) (Hs' & Ht' & Hc').
  split; [auto|]. split; congruence.
Qed.

Lemma persisted_uncounted m :
  (∀ extension featureId, uncounted (lookupState m extension featureId)) →
  undecidedUncounted (Json (persisted m)).
Proof.
  intros Hm e f p Hp Hnone. rewrite storedOf_persisted in Hp.
  specialize (Hm e f). unfold uncounted in Hm.
  destruct (lookupState m e f) as [fs|]; [|done].
  cbn in Hp. injection Hp as <-. cbn in *. by destruct (Hm Hnone).
Qed.

Lemma restored_uncounted stored extension featureId :
  undecidedUncounted stored →
  uncounted (restoreFeature <$> storedOf stored extension featureId).
Proof.
  intros Hstored Hnone. specialize (Hstored extension featureId).
  destruct (storedOf stored extension featureId) as [p|]; [|done].
  cbn in *. by rewrite (Hstored p).
Qed.

Lemma sound_saved (s : Service) :
  (∀ extension featureId, uncounted (stateOf s extension featureId)) →
  storageService s = Json (persisted (extensionFeaturesState s)) →
  sound s.
Proof.
  intros Hrec Hsto. split; [done|]. rewrite Hsto.
  by apply persisted_uncounted.
Qed.

Lemma exec_sound (c : Call) (s : Service) :
  ownStorage (Atomic c) → sound s → sound (exec c s).2.
Proof.
  intros Hown [Hrec Hsto].
  assert ((∃ stored, c = ExternalWrite stored) ∨ local c)
    as [[stored ->]|Hlocal].
  { destruct c; try (by right). left. eauto. }
  - cbn in Hown. split.
    + intros e f.
      destruct (exec_ExternalWrite stored s e f) as (_ & _ & _ & ->).
      by apply restored_uncounted.
    + by destruct (exec_ExternalWrite stored s "" "") as (_ & _ & -> & _).
  - assert (∀ e f, uncounted (stateOf (exec c s).2 e f)) as Hrec'.
    { intros e f. eapply recordStep_uncounted; [by apply exec_recordStep|].
      apply Hrec. }
    destruct (exec_frame c s) as [_ Hframe].
    destruct (Hframe Hlocal) as [Hsame|Hsaved].
    + split; [done|]. by rewrite Hsame.
    + by apply sound_saved.
Qed.

Lemma run_sound (calls : list Call) (s : Service) :
  Forall local calls → sound s → sound (run calls s).
Proof.
  intros Hlocal. revert s.
  induction Hlocal as [|c calls Hc _ IH]; intros s Hs; [done|].
  rewrite run_cons. apply IH, exec_sound; [|done].
  by destruct c.
Qed.

Lemma exec_GetAccess extension featureId now confirmed s :
  (exec (GetAccess extension featureId now confirmed) s).2
  = (getAccess extension featureId now confirmed s).2.
Proof.
  cbn [exec]. rewrite bind_run.
  by destruct (getAccess extension featureId now confirmed s) as [[?|?] ?].
Qed.

Lemma exec_SetEnablement extension featureId enabled s :
  (exec (SetEnablement extension featureId enabled) s).2
  = (setEnablement extension featureId enabled s).2.
Proof.
  cbn [exec]. rewrite bind_run.
  by destruct (setEnablement extension featureId enabled s) as [[?|?] ?].
Qed.

(** The first step of [getAccess] leaves the service either as the whole
    call would, when it does not ask, or with the record of the pair
    created. *)
Lemma getAccessBegin_state extension featureId now s :
  (getAccessBegin extension featureId now s).2
  = (exec (GetAccess extension featureId now true) s).2
  ∨ (disabledOf s extension featureId = None
     ∧ getAccessBegin extension featureId now s
       = (Returned None,
          with_state (ensured (extensionFeaturesState s) extension featureId)
            s)).
Proof.
  destruct (registry s !! featureId) as [d|] eqn:Hreg.
  - destruct (disabledOf s extension featureId) as [b|] eqn:Hd.
    + left. rewrite exec_GetAccess.
      rewrite (getAccessBegin_decided _ _ _ true) by eauto.
      by destruct (getAccess extension featureId now true s) as [[?|?] ?].
    + right. split; [done|]. by apply (getAccessBegin_undecided _ _ _ _ d).
  - left. rewrite exec_GetAccess.
    rewrite (getAccessBegin_decided _ _ _ true) by eauto.
    by destruct (getAccess extension featureId now true s) as [[?|?] ?].
Qed.

Lemma service_begin extension featureId now w :
  service (begin extension featureId now w).2
  = (getAccessBegin extension featureId now (service w)).2.
Proof.
  unfold begin.
  by destruct (getAccessBegin extension featureId now (service w))
    as [[[?|]|?] ?].
Qed.

(** The second step on a replaced record is, for the service,
    [setEnablement] and, once confirmed, [saveState] and an event. *)
Lemma getAccessResumeDetached_spec (c : Suspended) (now : Z)
    (confirmed : bool) (w : World) (d : IExtensionFeatureDescriptor) :
  registry (service w) !! su_featureId c = Some d →
  let s1 := (setEnablement (su_extension c) (su_featureId c) confirmed
               (service w)).2 in
  let w' := (getAccessResumeDetached c now confirmed w).2 in
  (getAccessResumeDetached c now confirmed w).1 = Returned confirmed
  ∧ registry (service w') = registry (service w)
  ∧ extensionFeaturesState (service w') = extensionFeaturesState s1
  ∧ onDidChangeEnablement (service w') = onDidChangeEnablement s1
  ∧ (if confirmed
     then storageService (service w')
          = Json (persisted (extensionFeaturesState s1))
     else service w' = s1)
  ∧ suspended w' = suspended w
  ∧ begun w' = begun w
  ∧ length (replaced w') = length (replaced w).
Proof.
  intros Hreg s1 w'. subst s1 w'. unfold getAccessResumeDetached.
  destruct (setEnablement_spec (su_extension c) (su_featureId c) confirmed
              (service w) d Hreg) as (s1 & -> & Hreg1 & _).
  destruct confirmed; cbn [fst snd].
  - unfold saveState, fireAccessData. runM. cbn [fst snd service replaced
      suspended begun]. fields. rewrite length_alter. by repeat split.
  - by repeat split.
Qed.

Lemma getAccessResumeDetached_unregistered (c : Suspended) (now : Z)
    (confirmed : bool) (w : World) :
  registry (service w) !! su_featureId c = None →
  getAccessResumeDetached c now confirmed w
  = (Thrown (noFeature (su_featureId c)), w).
Proof.
  intros Hreg. unfold getAccessResumeDetached, setEnablement,
    getExtensionFeature. runM. rewrite Hreg. runM. by destruct w.
Qed.

Lemma step_sound (ev : Event) (w : World) :
  ownStorage ev → sound (service w) → sound (service (step ev w).2).
Proof.
  intros Hown Hs. destruct ev as [c|e f now|call confirmed now]; cbn [step].
  - by apply exec_sound.
  - rewrite service_begin.
    destruct (getAccessBegin_state e f now (service w)) as [->|[Hd ->]].
    + by apply exec_sound.
    + destruct Hs as [Hrec Hsto]. split; [|done].
      intros e' f'. cbn [snd]. rewrite stateOf_with_state.
      destruct (decide (e' = e ∧ f' = f)) as [[-> ->]|Hne].
      * rewrite lookupState_ensured_eq. specialize (Hrec e f).
        unfold stateOf in Hrec.
        by destruct (lookupState (extensionFeaturesState (service w)) e f).
      * rewrite lookupState_ensured_ne; [apply Hrec|].
        destruct (decide (e' = e)) as [->|]; [|by left].
        right. intros ->. by apply Hne.
  - unfold answer. destruct (suspended w !! call) as [c|]; [|done].
    cbn zeta.
    destruct (registry (service w) !! su_featureId c) as [d|] eqn:Hreg.
    + case_decide.
      * cbn [snd service with_service].
        rewrite (getAccessResume_spec _ _ _ _ _ d Hreg). cbn [snd].
        apply run_sound; [|done]. destruct confirmed; repeat constructor.
      * cbn [snd].
        match goal with
        | |- context [getAccessResumeDetached c now confirmed ?w0] =>
            destruct (getAccessResumeDetached_spec c now confirmed w0 d Hreg)
              as (_ & _ & Hst & _ & Hsto & _)
        end.
        cbn [service] in Hst, Hsto.
        assert (sound (setEnablement (su_extension c) (su_featureId c)
                         confirmed (service w)).2) as [Hrec1 Hsto1].
        { rewrite <- exec_SetEnablement. by apply exec_sound. }
        destruct confirmed.
        -- apply sound_saved.
           ++ intros e' f'. unfold stateOf. rewrite Hst. apply Hrec1.
           ++ by rewrite Hsto, Hst.
        -- by rewrite Hsto.
    + case_decide.
      * cbn [snd service with_service].
        by rewrite getAccessResume_unregistered.
      * by rewrite getAccessResumeDetached_unregistered.
Qed.

Lemma play_cons (ev : Event) (events : list Event) (w : World) :
  play (ev :: events) w = play events (step ev w).2.
Proof. reflexivity. Qed.

Lemma play_sound (events : list Event) (w : World) :
  Forall ownStorage events → sound (service w) →
  sound (service (play events w)).
Proof.
  intros Hown. revert w.
  induction Hown as [|ev events Hev _ IH]; intros w Hs; [done|].
  rewrite play_cons. by apply IH, step_sound.
Qed.

(** In every state of a service over values of that kind, an undecided
    pair has counted no access, in the record and in storage: what the
    service writes is again of that kind. *)
Lemma reachableWorld_sound (w : World) :
  reachableWorld w → sound (service w).
Proof.
  intros (reg & stored & events & Hstored & Hown & ->).
  apply play_sound; [done|]. split; [|done].
  intros e f. unfold stateOf. cbn [newWorld service newService
    extensionFeaturesState].
  rewrite lookupState_restored. by apply restored_uncounted.
Qed.

Lemma reachableWorld_storage (w : World) :
  reachableWorld w → undecidedUncounted (storageService (service w)).
Proof. intros Hw. by destruct (reachableWorld_sound w Hw). Qed.

Lemma step_registry (ev : Event) (w : World) :
  registry (service (step ev w).2) = registry (service w).
Proof.
  destruct ev as [c|e f now|call confirmed now]; cbn [step].
  - apply exec_frame.
  - rewrite service_begin.
    destruct (getAccessBegin_state e f now (service w)) as [->|[_ ->]];
      [apply exec_frame|done].
  - unfold answer. destruct (suspended w !! call) as [c|]; [|done].
    cbn zeta.
    destruct (registry (service w) !! su_featureId c) as [d|] eqn:Hreg.
    + case_decide.
      * cbn [snd service with_service].
        rewrite (getAccessResume_spec _ _ _ _ _ d Hreg). cbn [snd].
        apply run_registry.
      * cbn [snd].
        match goal with
        | |- context [getAccessResumeDetached c now confirmed ?w0] =>
            by destruct (getAccessResumeDetached_spec c now confirmed w0 d
                           Hreg) as (_ & ? & _)
        end.
    + case_decide.
      * cbn [snd service with_service].
        by rewrite getAccessResume_unregistered.
      * by rewrite getAccessResumeDetached_unregistered.
Qed.

(** A suspended call stays as it is until its dialog is answered. *)
Lemma step_suspended (ev : Event) (w : World) (i : nat) (c : Suspended) :
  suspended w !! i = Some c → (i < begun w)%nat → ¬ answers i ev →
  suspended (step ev w).2 !! i = Some c ∧ (i < begun (step ev w).2)%nat.
Proof.
  intros Hi Hlt Hev. destruct ev as [c0|e f now|call confirmed now];
    cbn [step].
  - done.
  - unfold begin.
    destruct (getAccessBegin e f now (service w)) as [[[b|]|msg] s'];
      cbn [snd suspended begun with_service]; try done.
    split; [|lia]. rewrite lookup_insert_ne by lia. done.
  - cbn in Hev. unfold answer.
    destruct (suspended w !! call) as [c0|] eqn:Hcall; [|done].
    cbn zeta.
    assert (delete call (suspended w) !! i = Some c) as Hdel.
    { by rewrite lookup_delete_ne. }
    case_decide; [done|]. cbn [snd].
    destruct (registry (service w) !! su_featureId c0) as [d|] eqn:Hreg.
    + match goal with
      | |- context [getAccessResumeDetached c0 now confirmed ?w0] =>
          destruct (getAccessResumeDetached_spec c0 now confirmed w0 d Hreg)
            as (_ & _ & _ & _ & _ & -> & -> & _)
      end. done.
    + by rewrite getAccessResumeDetached_unregistered.
Qed.

Lemma play_waiting (during : list Event) (w : World) (i : nat)
    (c : Suspended) :
  suspended w !! i = Some c → (i < begun w)%nat →
  Forall (λ ev, ¬ answers i ev) during →
  suspended (play during w) !! i = Some c
  ∧ registry (service (play during w)) = registry (service w).
Proof.
  intros Hi Hlt Hduring. revert w Hi Hlt.
  induction Hduring as [|ev during Hev _ IH]; intros w Hi Hlt; [done|].
  rewrite play_cons.
  destruct (step_suspended ev w i c Hi Hlt Hev) as [Hi' Hlt'].
  destruct (IH _ Hi' Hlt') as [-> ->]. by rewrite step_registry.
Qed.

(** A quiet step leaves the counters of the pair and the state map in
    use. *)
Lemma step_quiet (extension featureId : string) (ev : Event) (w : World) :
  quietEvent extension featureId ev w →
  sameCounts (stateOf (service w) extension featureId)
    (stateOf (service (step ev w).2) extension featureId)
  ∧ length (replaced (step ev w).2) = length (replaced w).
Proof.
  intros Hq.
  assert (∀ c s, local c → granted extension featureId c (exec c s).1 = false →
            sameCounts (stateOf s extension featureId)
              (stateOf (exec c s).2 extension featureId)) as Hcall.
  { intros c s Hlocal Hg. apply recordStep_sameCounts. rewrite <- Hg.
    by apply exec_recordStep. }
  assert (∀ e f b s, ¬ (e = extension ∧ f = featureId) →
            sameCounts (stateOf s extension featureId)
              (stateOf (exec (SetEnablement e f b) s).2 extension featureId))
    as Hset.
  { intros e f b s Hne. by apply Hcall. }
  assert (∀ e f now b s, ¬ (e = extension ∧ f = featureId) →
            sameCounts (stateOf s extension featureId)
              (stateOf (exec (GetAccess e f now b) s).2 extension featureId))
    as Hget.
  { intros e f now b s Hne. apply Hcall; [done|]. cbn [granted].
    destruct (exec _ s).1 as [[| [|] | |]|]; try done.
    by rewrite bool_decide_eq_false_2. }
  destruct ev as [c|e f now|call confirmed now]; cbn [step quietEvent] in *.
  - split.
    + destruct c; try done; try (by apply Hcall). by apply Hget.
    + by destruct c.
  - split.
    + rewrite service_begin.
      destruct (getAccessBegin_state e f now (service w)) as [->|[_ ->]];
        [by apply Hget|].
      cbn [snd]. rewrite stateOf_with_state, lookupState_ensured_ne;
        [apply sameCounts_refl|].
      destruct (decide (extension = e)) as [->|]; [|by left].
      right. intros ->. by apply Hq.
    + unfold begin.
      by destruct (getAccessBegin e f now (service w)) as [[[b|]|msg] s'].
  - unfold answer. destruct (suspended w !! call) as [c|]; cbn zeta;
      [|split; [apply sameCounts_refl|done]].
    destruct (registry (service w) !! su_featureId c) as [d|] eqn:Hreg.
    + case_decide.
      * cbn [snd service with_service replaced].
        rewrite (getAccessResume_spec _ _ _ _ _ d Hreg). cbn [snd].
        split; [|done]. destruct confirmed; cbn [run foldl].
        -- eapply sameCounts_trans; [by apply Hset|by apply Hget].
        -- by apply Hset.
      * cbn [snd].
        match goal with
        | |- context [getAccessResumeDetached c now confirmed ?w0] =>
            destruct (getAccessResumeDetached_spec c now confirmed w0 d Hreg)
              as (_ & _ & Hst & _ & _ & _ & _ & Hlen)
        end.
        cbn [service replaced] in Hst, Hlen. split; [|done].
        unfold stateOf at 2. rewrite Hst, <- exec_SetEnablement.
        by apply Hset.
    + case_decide.
      * cbn [snd service with_service replaced].
        rewrite getAccessResume_unregistered by done.
        split; [apply sameCounts_refl|done].
      * rewrite getAccessResumeDetached_unregistered by done.
        split; [apply sameCounts_refl|done].
Qed.

Lemma play_quiet (extension featureId : string) (during : list Event)
    (w : World) :
  quiet extension featureId during w →
  sameCounts (stateOf (service w) extension featureId)
    (stateOf (service (play during w)) extension featureId)
  ∧ length (replaced (play during w)) = length (replaced w).
Proof.
  revert w. induction during as [|ev during IH]; intros w Hq.
  - split; [apply sameCounts_refl|done].
  - destruct Hq as [Hev Hq]. rewrite play_cons.
    destruct (step_quiet extension featureId ev w Hev) as [Hc Hl].
    destruct (IH _ Hq) as [Hc' Hl'].
    split; [by eapply sameCounts_trans|congruence].
Qed.

(** The step that opens the dialog of an undecided pair. *)
Lemma begin_undecided (w : World) (extension featureId : string)
    (d : IExtensionFeatureDescriptor) (now : Z) :
  registry (service w) !! featureId = Some d →
  disabledOf (service w) extension featureId = None →
  step (Begin extension featureId now) w
  = (Waiting (begun w),
     {| service :=
          with_state (ensured (extensionFeaturesState (service w))
                        extension featureId) (service w);
        replaced := replaced w;
        suspended :=
          <[begun w := {| su_extension := extension;
                          su_featureId := featureId;
                          su_map := length (replaced w) |}]> (suspended w);
        begun := S (begun w) |}).
Proof.
  intros Hreg Hd. cbn [step]. unfold begin.
  by rewrite (getAccessBegin_undecided _ _ _ _ d).
Qed.

(** The answer of a dialog, whatever the record the call holds: the call
    returns the answer, and the flag of the pair in the state map in use is
    set to it. *)
Lemma answer_decides (w : World) (call : nat) (c : Suspended)
    (d : IExtensionFeatureDescriptor) (confirmed : bool) (now : Z) :
  suspended w !! call = Some c →
  registry (service w) !! su_featureId c = Some d →
  let w' := (step (Answer call confirmed now) w).2 in
  (step (Answer call confirmed now) w).1
    = Replied (Returned (VBool confirmed))
  ∧ registry (service w') = registry (service w)
  ∧ disabledOf (service w') (su_extension c) (su_featureId c)
    = Some (negb confirmed)
  ∧ (confirmed = false →
     totalOf (service w') (su_extension c) (su_featureId c)
     = totalOf (service w) (su_extension c) (su_featureId c)
     ∧ accessData <$> stateOf (service w') (su_extension c) (su_featureId c)
       = Some (accessData (default newFeatureState
                 (stateOf (service w) (su_extension c) (su_featureId c))))
     ∧ onDidChangeAccessData (service w') = onDidChangeAccessData (service w))
  ∧ (confirmed = true → su_map c = length (replaced w) →
     stateOf (service w') (su_extension c) (su_featureId c)
     = Some (incrementTotalCount (assignCurrentOnAccess now
               (assignDisabled false (default newFeatureState
                  (stateOf (service w) (su_extension c)
                     (su_featureId c))))))).
Proof.
  intros Hcall Hreg w'. subst w'. cbn [step]. unfold answer.
  rewrite Hcall. cbn zeta.
  destruct (setEnablement_spec (su_extension c) (su_featureId c) confirmed
              (service w) d Hreg)
    as (s1 & Hrun1 & Hreg1 & Hst1 & _ & Hacc1 & _).
  case_decide as Hlive.
  - cbn [fst snd service with_service]. unfold getAccessResume.
    rewrite bind_run, Hrun1. destruct confirmed.
    + destruct (recordAccess_spec (su_extension c) (su_featureId c) now s1 _
                  Hst1) as (s2 & -> & Hreg2 & Hst2 & _).
      cbn [fst snd boolOutcome]. unfold disabledOf. rewrite Hst2.
      split; [done|]. split; [congruence|]. split; [done|].
      split; [done|]. done.
    + runM. cbn [fst snd boolOutcome]. unfold disabledOf, totalOf.
      rewrite Hst1.
      split; [done|]. split; [done|]. split; [done|]. split; [|done].
      intros _. split; [|done].
      by destruct (stateOf (service w) (su_extension c) (su_featureId c)).
  - cbn [fst snd].
    match goal with
    | |- context [getAccessResumeDetached c now confirmed ?w0] =>
        destruct (getAccessResumeDetached_spec c now confirmed w0 d Hreg)
          as (-> & Hreg' & Hst & _ & Hsto & _)
    end.
    cbn [service] in Hreg', Hst, Hsto. rewrite Hrun1 in Hst, Hsto.
    cbn [snd] in Hst, Hsto. cbn [boolOutcome].
    unfold disabledOf, totalOf, stateOf. rewrite Hst.
    unfold stateOf in Hst1. rewrite Hst1.
    split; [done|]. split; [done|]. split; [done|]. split; [|done].
    intros ->. subst. split; [|split; [done|]].
    + by destruct (lookupState (extensionFeaturesState (service w))
                     (su_extension c) (su_featureId c)).
    + congruence.
Qed.

(** ** The first access of a pair *)

(** The state the dialog of an undecided pair is opened in and answered
    in, after the events [during]. *)
Lemma dialog_answered (w : World) (extension featureId : string)
    (d : IExtensionFeatureDescriptor) (opened : Z) (during : list Event) :
  reachableWorld w →
  registry (service w) !! featureId = Some d →
  disabledOf (service w) extension featureId = None →
  Forall (λ ev, ¬ answers (begun w) ev) during →
  let asked := step (Begin extension featureId opened) w in
  let w1 := play during asked.2 in
  let c := {| su_extension := extension; su_featureId := featureId;
              su_map := length (replaced w) |} in
  asked.1 = Waiting (begun w)
  ∧ suspended w1 !! begun w = Some c
  ∧ registry (service w1) !! featureId = Some d
  ∧ (quiet extension featureId during asked.2 →
     length (replaced w1) = length (replaced w)
     ∧ totalCount (accessData (default newFeatureState
                     (stateOf (service w1) extension featureId))) = 0
     ∧ default 0 (count <$> currentOf (service w1) extension featureId) = 0).
Proof.
  intros Hreach Hreg Hd Hduring asked w1 c. subst asked w1.
  rewrite (begin_undecided w extension featureId d opened Hreg Hd).
  cbn [fst snd]. split; [done|].
  match goal with
  | |- context [play during ?w0] =>
      destruct (play_waiting during w0 (begun w) c) as [Hc Hreg1];
        [by cbn; rewrite lookup_insert_eq|cbn; lia|done|];
      split; [exact Hc|]; split; [by rewrite Hreg1|];
      intros Hq; destruct (play_quiet extension featureId during w0 Hq)
        as [(_ & Htot & Hcnt) Hlen]
  end.
  cbn [service replaced] in Htot, Hcnt, Hlen.
  rewrite stateOf_with_state, lookupState_ensured_eq in Htot, Hcnt.
  destruct (reachableWorld_sound w Hreach) as [Hrec _].
  specialize (Hrec extension featureId). unfold uncounted in Hrec.
  unfold disabledOf, stateOf in Hd. unfold stateOf in Hrec.
  destruct (Hrec Hd) as [Htot0 Hcnt0].
  split; [done|]. unfold currentOf.
  destruct (stateOf (service (play during _)) extension featureId)
    as [fs1|];
    destruct (lookupState (extensionFeaturesState (service w)) extension
                featureId) as [fs|]; cbn in *; split; congruence.
Qed.

(** C1, as the code has it. A call of [getAccess] for a registered feature
    and a pair whose flag is undecided opens the dialog and waits. Whatever
    runs on the service until the dialog is confirmed, the call then
    returns true and [isEnabled] is true afterwards. If, while the dialog
    was open, the stored value was not changed by another process and no
    other access of the pair was asked for or resumed, the pair's access
    data then has [totalCount] 1, [current.count] 1, [current.lastAccessed]
    the time read after the answer, and the status it had. The service is
    in any state it reaches over stored values in which an undecided entry
    counts no access, the kind services write. *)
Theorem getAccess_undecided_confirmed (w : World)
    (extension featureId : string) (d : IExtensionFeatureDescriptor)
    (opened now : Z) (during : list Event) :
  reachableWorld w →
  registry (service w) !! featureId = Some d →
  disabledOf (service w) extension featureId = None →
  Forall (λ ev, ¬ answers (begun w) ev) during →
  let asked := step (Begin extension featureId opened) w in
  let w1 := play during asked.2 in
  let answered := step (Answer (begun w) true now) w1 in
  asked.1 = Waiting (begun w)
  ∧ answered.1 = Replied (Returned (VBool true))
  ∧ (isEnabled extension featureId (service answered.2)).1 = Returned true
  ∧ (quiet extension featureId during asked.2 →
     (getAccessData extension featureId (service answered.2)).1
     = Returned (Some
         {| totalCount := 1;
            current := Some
              {| count := 1;
                 lastAccessed := now;
                 status :=
                   currentOf (service w1) extension featureId
                   ≫= status |} |})).
Proof.
  intros Hreach Hreg Hd Hduring asked w1 answered.
  destruct (dialog_answered w extension featureId d opened during
              Hreach Hreg Hd Hduring) as (Hasked & Hc & Hreg1 & Hquiet).
  fold asked in Hasked, Hc, Hreg1, Hquiet. fold w1 in Hc, Hreg1, Hquiet.
  destruct (answer_decides w1 (begun w) _ d true now Hc Hreg1)
    as (Hret & Hreg2 & Hdis & _ & Hlive).
  fold answered in Hret, Hreg2, Hdis, Hlive.
  cbn [su_extension su_featureId su_map] in *.
  split; [exact Hasked|]. split; [exact Hret|].
  rewrite isEnabled_run, getAccessData_run. cbn [fst].
  rewrite Hreg2, Hreg1, Hdis. split; [done|].
  intros Hq. destruct (Hquiet Hq) as (Hlen & Htot & Hcnt).
  rewrite (Hlive eq_refl (eq_sym Hlen)). unfold currentOf in *.
  destruct (stateOf (service w1) extension featureId)
    as [[dis [total [[c la st]|]]]|]; cbn in *; subst; done.
Qed.

Lemma getAccess_undecided_confirmed_witness :
  let w := newWorld repoRegistry NoValue in
  let during := [Atomic (SetStatus "pub.ext" "codeActions" None);
                 Begin "pub.ext" "jsonValidation" 1001;
                 Atomic (IsEnabled "pub.ext" "codeActions");
                 Answer 1 true 1002] in
  let asked := step (Begin "pub.ext" "codeActions" 1000) w in
  let answered := step (Answer 0 true 1003) (play during asked.2) in
  answered.1 = Replied (Returned (VBool true))
  ∧ (isEnabled "pub.ext" "codeActions" (service answered.2)).1
    = Returned true
  ∧ (getAccessData "pub.ext" "codeActions" (service answered.2)).1
    = Returned (Some
        {| totalCount := 1;
           current := Some {| count := 1; lastAccessed := 1003;
                              status := None |} |}).
Proof.
  intros w during asked answered.
  destruct (getAccess_undecided_confirmed w "pub.ext" "codeActions"
              {| label := "Code Actions"; description := None;
                 canToggle := false |} 1000 1003 during)
    as (_ & Hret & Hen & Hdata).
  - exists repoRegistry, NoValue, []. split; [done|]. split; [constructor|done].
  - vm_compute. reflexivity.
  - vm_compute. reflexivity.
  - repeat (constructor; [by vm_compute|]). constructor.
  - split; [exact Hret|]. split; [exact Hen|]. apply Hdata.
    vm_compute. repeat split; by intros [? ?].
Defined.

(** C1 fails as stated, in two ways, both in a service constructed over
    empty storage. (1) Two calls of [getAccess] for the pair are made while
    it is undecided, so two dialogs are open; both are confirmed. The
    second call returns true with [totalCount] 2 and [current.count] 2.
    (2) One call is made; while its dialog is open a second window, which
    has enabled another feature of the extension, stores its state, and the
    listener reloads. The dialog is then confirmed: the call returns true
    and [isEnabled] is true, but lines 114-119 have counted on the record
    of the replaced map, and the pair's access data has [totalCount] 0 and
    no [current]. *)
Lemma getAccess_confirmed_dialog_interleaved :
  let w := newWorld repoRegistry NoValue in
  let first := step (Begin "pub.ext" "codeActions" 1000) w in
  let second := step (Begin "pub.ext" "codeActions" 1001) first.2 in
  let firstAnswered := step (Answer 0 true 1002) second.2 in
  let secondAnswered := step (Answer 1 true 1003) firstAnswered.2 in
  let other := run [SetEnablement "pub.ext" "jsonValidation" true]
                 (newService repoRegistry NoValue) in
  let reloaded :=
    step (Atomic (ExternalWrite (storageService other))) first.2 in
  let answered := step (Answer 0 true 1002) reloaded.2 in
  (is_Some (registry (service first.2) !! "codeActions")
   ∧ disabledOf (service first.2) "pub.ext" "codeActions" = None
   ∧ second.1 = Waiting 1
   ∧ firstAnswered.1 = Replied (Returned (VBool true))
   ∧ secondAnswered.1 = Replied (Returned (VBool true))
   ∧ (getAccessData "pub.ext" "codeActions" (service secondAnswered.2)).1
     = Returned (Some {| totalCount := 2;
                         current := Some {| count := 2; lastAccessed := 1003;
                                            status := None |} |})
   ∧ totalOf (service secondAnswered.2) "pub.ext" "codeActions" ≠ 1)
  ∧ (is_Some (registry (service w) !! "codeActions")
     ∧ disabledOf (service w) "pub.ext" "codeActions" = None
     ∧ first.1 = Waiting 0
     ∧ storageService other
       = Json {[ "pub.ext" := {[ "jsonValidation" :=
                   {| p_disabled := Some false; accessCount := 0 |} ]} ]}
     ∧ answered.1 = Replied (Returned (VBool true))
     ∧ (isEnabled "pub.ext" "codeActions" (service answered.2)).1
       = Returned true
     ∧ (getAccessData "pub.ext" "codeActions" (service answered.2)).1
       = Returned (Some {| totalCount := 0; current := None |})
     ∧ totalOf (service answered.2) "pub.ext" "codeActions" ≠ 1).
Proof.
  vm_compute.
  split; (split; [eauto|]); repeat (split; [reflexivity|]); done.
Qed.

(** C2, as the code has it. With the dialog declined, whatever ran on the
    service while it was open, the call returns false, [isEnabled] is false
    afterwards, and the answer records no access: the pair's access data
    is what it was when the answer came, and no access-data event is
    fired. If, while the dialog was open, the stored value was not changed
    by another process and no other access of the pair was asked for or
    resumed, the pair's [totalCount] is 0. *)
Theorem getAccess_undecided_declined (w : World)
    (extension featureId : string) (d : IExtensionFeatureDescriptor)
    (opened now : Z) (during : list Event) :
  reachableWorld w →
  registry (service w) !! featureId = Some d →
  disabledOf (service w) extension featureId = None →
  Forall (λ ev, ¬ answers (begun w) ev) during →
  let asked := step (Begin extension featureId opened) w in
  let w1 := play during asked.2 in
  let answered := step (Answer (begun w) false now) w1 in
  asked.1 = Waiting (begun w)
  ∧ answered.1 = Replied (Returned (VBool false))
  ∧ (isEnabled extension featureId (service answered.2)).1 = Returned false
  ∧ (getAccessData extension featureId (service answered.2)).1
    = Returned (Some (accessData (default newFeatureState
                        (stateOf (service w1) extension featureId))))
  ∧ totalOf (service answered.2) extension featureId
    = totalOf (service w1) extension featureId
  ∧ onDidChangeAccessData (service answered.2)
    = onDidChangeAccessData (service w1)
  ∧ (quiet extension featureId during asked.2 →
     totalOf (service answered.2) extension featureId = 0).
Proof.
  intros Hreach Hreg Hd Hduring asked w1 answered.
  destruct (dialog_answered w extension featureId d opened during
              Hreach Hreg Hd Hduring) as (Hasked & Hc & Hreg1 & Hquiet).
  fold asked in Hasked, Hc, Hreg1, Hquiet. fold w1 in Hc, Hreg1, Hquiet.
  destruct (answer_decides w1 (begun w) _ d false now Hc Hreg1)
    as (Hret & Hreg2 & Hdis & Hsame & _).
  fold answered in Hret, Hreg2, Hdis, Hsame.
  cbn [su_extension su_featureId su_map] in *.
  destruct (Hsame eq_refl) as (Htot & Hdata & Hev).
  split; [exact Hasked|]. split; [exact Hret|].
  rewrite isEnabled_run, getAccessData_run. cbn [fst].
  rewrite Hreg2, Hreg1, Hdis, Hdata.
  split; [done|]. split; [done|]. split; [done|]. split; [done|].
  intros Hq. destruct (Hquiet Hq) as (_ & Htot1 & _).
  rewrite Htot. unfold totalOf.
  by destruct (stateOf (service w1) extension featureId).
Qed.

Lemma getAccess_undecided_declined_witness :
  let w := newWorld repoRegistry NoValue in
  let during := [Atomic (SetStatus "pub.ext" "codeActions" None);
                 Begin "pub.ext" "jsonValidation" 1001;
                 Atomic (IsEnabled "pub.ext" "codeActions");
                 Answer 1 true 1002] in
  let asked := step (Begin "pub.ext" "codeActions" 1000) w in
  let answered := step (Answer 0 false 1003) (play during asked.2) in
  answered.1 = Replied (Returned (VBool false))
  ∧ (isEnabled "pub.ext" "codeActions" (service answered.2)).1
    = Returned false
  ∧ totalOf (service answered.2) "pub.ext" "codeActions" = 0.
Proof.
  intros w during asked answered.
  destruct (getAccess_undecided_declined w "pub.ext" "codeActions"
              {| label := "Code Actions"; description := None;
                 canToggle := false |} 1000 1003 during)
    as (_ & Hret & Hen & _ & _ & _ & Hzero).
  - exists repoRegistry, NoValue, []. split; [done|]. split; [constructor|done].
  - vm_compute. reflexivity.
  - vm_compute. reflexivity.
  - repeat (constructor; [by vm_compute|]). constructor.
  - split; [exact Hret|]. split; [exact Hen|]. apply Hzero.
    vm_compute. repeat split; by intros [? ?].
Defined.

(** C2 fails as stated, in two ways, both in a service constructed over
    empty storage. (1) Two calls of [getAccess] for the pair are made while
    it is undecided; the dialog of the first is confirmed, that of the
    second declined. The second call returns false and [isEnabled] is false
    afterwards, but [totalCount] is 1, the access of the first call.
    (2) One call is made; while its dialog is open a second window, in
    which the same access was confirmed, stores its state, and the
    listener reloads. The dialog is then declined: the call returns false,
    [isEnabled] is false, and [totalCount] is 1. *)
Lemma getAccess_declined_dialog_interleaved :
  let w := newWorld repoRegistry NoValue in
  let first := step (Begin "pub.ext" "codeActions" 1000) w in
  let second := step (Begin "pub.ext" "codeActions" 1001) first.2 in
  let firstAnswered := step (Answer 0 true 1002) second.2 in
  let secondAnswered := step (Answer 1 false 1003) firstAnswered.2 in
  let other := run [GetAccess "pub.ext" "codeActions" 1001 true]
                 (newService repoRegistry NoValue) in
  let reloaded :=
    step (Atomic (ExternalWrite (storageService other))) first.2 in
  let answered := step (Answer 0 false 1002) reloaded.2 in
  (is_Some (registry (service first.2) !! "codeActions")
   ∧ disabledOf (service first.2) "pub.ext" "codeActions" = None
   ∧ second.1 = Waiting 1
   ∧ firstAnswered.1 = Replied (Returned (VBool true))
   ∧ secondAnswered.1 = Replied (Returned (VBool false))
   ∧ (isEnabled "pub.ext" "codeActions" (service secondAnswered.2)).1
     = Returned false
   ∧ (getAccessData "pub.ext" "codeActions" (service secondAnswered.2)).1
     = Returned (Some {| totalCount := 1;
                         current := Some {| count := 1; lastAccessed := 1002;
                                            status := None |} |})
   ∧ totalOf (service secondAnswered.2) "pub.ext" "codeActions" ≠ 0)
  ∧ (is_Some (registry (service w) !! "codeActions")
     ∧ disabledOf (service w) "pub.ext" "codeActions" = None
     ∧ first.1 = Waiting 0
     ∧ storageService other
       = Json {[ "pub.ext" := {[ "codeActions" :=
                   {| p_disabled := Some false; accessCount := 1 |} ]} ]}
     ∧ answered.1 = Replied (Returned (VBool false))
     ∧ (isEnabled "pub.ext" "codeActions" (service answered.2)).1
       = Returned false
     ∧ (getAccessData "pub.ext" "codeActions" (service answered.2)).1
       = Returned (Some {| totalCount := 1; current := None |})
     ∧ totalOf (service answered.2) "pub.ext" "codeActions" ≠ 0).
Proof.
  vm_compute.
  split; (split; [eauto|]); repeat (split; [reflexivity|]); done.
Qed.

(** ** Accesses of an enabled pair *)

(** One access of an enabled pair whose session count is not negative. *)
Lemma getAccess_enabled_step (s : Service) (extension featureId : string)
    (d : IExtensionFeatureDescriptor) (now : Z) (confirmed : bool) :
  registry s !! featureId = Some d →
  disabledOf s extension featureId = Some false →
  0 ≤ sessionCountOf s extension featureId →
  ∃ s', getAccess extension featureId now confirmed s = (Returned true, s')
    ∧ registry s' = registry s
    ∧ disabledOf s' extension featureId = Some false
    ∧ totalOf s' extension featureId = totalOf s extension featureId + 1
    ∧ sessionCountOf s' extension featureId
      = sessionCountOf s extension featureId + 1
    ∧ currentOf s' extension featureId
      = Some {| count := sessionCountOf s extension featureId + 1;
                lastAccessed := now;
                status := currentOf s extension featureId ≫= status |}
    ∧ onDidChangeEnablement s' = onDidChangeEnablement s
    ∧ onDidChangeAccessData s'
      = onDidChangeAccessData s
        ++ [{| ad_extension := extension; ad_featureId := featureId;
               ad_accessData := Some
                 {| totalCount := totalOf s extension featureId + 1;
                    current := Some
                      {| count := sessionCountOf s extension featureId + 1;
                         lastAccessed := now;
                         status :=
                           currentOf s extension featureId ≫= status |} |} |}]
    ∧ storageService s' = Json (persisted (extensionFeaturesState s')).
Proof.
  intros Hreg Hd Hcount.
  rewrite (getAccess_enabled _ _ _ _ _ d) by done.
  destruct (disabledOf_Some _ _ _ _ Hd) as (fs & Hfs & Hdis).
  destruct (recordAccess_spec extension featureId now s fs Hfs)
    as (s' & -> & Hreg' & Hst & _ & Hen & Hacc & Hsto).
  exists s'. unfold disabledOf, totalOf, sessionCountOf, currentOf in *.
  rewrite Hst, Hacc, Hfs in *. clear Hst Hacc Hfs.
  destruct fs as [dis [total [[c la st]|]]]; cbn in *; subst;
    repeat case_bool_decide; subst; repeat split; try done;
    repeat f_equal; lia.
Qed.

(** A series of accesses of an enabled pair. *)
Lemma accessCalls_run (extension featureId : string)
    (d : IExtensionFeatureDescriptor) (inputs : list (Z * bool)) :
  ∀ s : Service,
  registry s !! featureId = Some d →
  disabledOf s extension featureId = Some false →
  0 ≤ sessionCountOf s extension featureId →
  let calls := accessCalls extension featureId inputs in
  let s' := run calls s in
  outcomes calls s = replicate (length inputs) (Returned (VBool true))
  ∧ registry s' = registry s
  ∧ disabledOf s' extension featureId = Some false
  ∧ totalOf s' extension featureId
    = totalOf s extension featureId + Z.of_nat (length inputs)
  ∧ sessionCountOf s' extension featureId
    = sessionCountOf s extension featureId + Z.of_nat (length inputs)
  ∧ currentOf s' extension featureId ≫= status
    = currentOf s extension featureId ≫= status
  ∧ onDidChangeEnablement s' = onDidChangeEnablement s
  ∧ onDidChangeAccessData s'
    = onDidChangeAccessData s
      ++ expectedAccessEvents extension featureId
           (totalOf s extension featureId)
           (sessionCountOf s extension featureId)
           (currentOf s extension featureId ≫= status) inputs
  ∧ (inputs ≠ [] →
     lastAccessed <$> currentOf s' extension featureId = fst <$> last inputs
     ∧ storageService s' = Json (persisted (extensionFeaturesState s'))).
Proof.
  induction inputs as [|i inputs IH]; intros s Hreg Hd Hcount calls s';
    subst calls s'.
  - cbn. rewrite app_nil_r, !Z.add_0_r. by repeat split.
  - cbn [accessCalls fmap list_fmap outcomes]. rewrite run_cons.
    cbn [exec]. rewrite bind_run.
    destruct (getAccess_enabled_step s extension featureId d i.1 i.2
                Hreg Hd Hcount)
      as (s1 & -> & Hreg1 & Hd1 & Htot1 & Hses1 & Hcur1 & Hen1 & Hacc1
          & Hsto1).
    runM. cbn [fst snd].
    destruct (IH s1) as (Hout & Hreg2 & Hd2 & Htot2 & Hses2 & Hstat2 & Hen2
                         & Hacc2 & Hlast2); [congruence|done|lia|].
    fold (accessCalls extension featureId inputs).
    rewrite Hout, Hreg2, Hd2, Htot2, Hses2, Hstat2, Hen2, Hacc2.
    rewrite Hreg1, Htot1, Hses1, Hen1, Hacc1, Hcur1.
    cbn [expectedAccessEvents length replicate mbind option_bind status].
    rewrite <- app_assoc. cbn [app].
    repeat split; try done; try lia.
    + destruct inputs as [|j inputs]; [|by destruct Hlast2 as [-> _]].
      cbn [accessCalls fmap list_fmap run foldl]. by rewrite Hcur1.
    + destruct inputs as [|j inputs]; [exact Hsto1|by destruct Hlast2].
Qed.

(** C3. A registered feature, a pair with the flag at enabled
    ([disabled === false]) and no current-session count, and [n >= 1] calls
    of [getAccess] in a row: every call returns true; [totalCount] has grown
    by [n]; [current.count] is [n]; [current.lastAccessed] is the time of
    the last call; the status is kept; the calls have fired one access-data
    event each, carrying the counts reached at that call, and no enablement
    event; and after each of the calls the stored value is the saved
    state. *)
Theorem getAccess_repeated (s : Service) (extension featureId : string)
    (d : IExtensionFeatureDescriptor) (inputs : list (Z * bool)) :
  registry s !! featureId = Some d →
  disabledOf s extension featureId = Some false →
  sessionCountOf s extension featureId = 0 →
  inputs ≠ [] →
  let calls := accessCalls extension featureId inputs in
  let s' := run calls s in
  outcomes calls s = replicate (length inputs) (Returned (VBool true))
  ∧ totalOf s' extension featureId
    = totalOf s extension featureId + Z.of_nat (length inputs)
  ∧ count <$> currentOf s' extension featureId
    = Some (Z.of_nat (length inputs))
  ∧ lastAccessed <$> currentOf s' extension featureId = fst <$> last inputs
  ∧ currentOf s' extension featureId ≫= status
    = currentOf s extension featureId ≫= status
  ∧ onDidChangeAccessData s'
    = onDidChangeAccessData s
      ++ expectedAccessEvents extension featureId
           (totalOf s extension featureId) 0
           (currentOf s extension featureId ≫= status) inputs
  ∧ onDidChangeEnablement s' = onDidChangeEnablement s
  ∧ (∀ k : nat, (0 < k ≤ length inputs)%nat →
       storageService (run (take k calls) s)
       = Json (persisted (extensionFeaturesState (run (take k calls) s)))).
Proof.
  intros Hreg Hd Hzero Hne calls s'. subst calls s'.
  destruct (accessCalls_run extension featureId d inputs s Hreg Hd)
    as (Hout & _ & _ & Htot & Hses & Hstat & Hen & Hacc & Hlast); [lia|].
  destruct (Hlast Hne) as [Hla _].
  rewrite Hzero in *. repeat split; try done.
  - unfold sessionCountOf in Hses.
    destruct (currentOf (run (accessCalls extension featureId inputs) s)
                extension featureId) as [cur|]; cbn in *.
    + f_equal. lia.
    + by destruct inputs.
  - intros k Hk. unfold accessCalls. rewrite <- fmap_take.
    destruct (accessCalls_run extension featureId d (take k inputs) s
                Hreg Hd) as (_ & _ & _ & _ & _ & _ & _ & _ & Hsto); [lia|].
    apply Hsto. destruct inputs as [|i inputs]; [done|].
    destruct k as [|k]; [lia|done].
Qed.

Lemma getAccess_repeated_witness :
  let s := run [SetEnablement "pub.ext" "codeActions" true]
             (newService repoRegistry NoValue) in
  let inputs := [(1000, true); (1005, false); (1010, true)] in
  let s' := run (accessCalls "pub.ext" "codeActions" inputs) s in
  totalOf s' "pub.ext" "codeActions" = totalOf s "pub.ext" "codeActions" + 3
  ∧ count <$> currentOf s' "pub.ext" "codeActions" = Some 3
  ∧ lastAccessed <$> currentOf s' "pub.ext" "codeActions" = Some 1010.
Proof.
  intros s inputs s'.
  destruct (getAccess_repeated s "pub.ext" "codeActions"
              {| label := "Code Actions"; description := None;
                 canToggle := false |} inputs)
    as (_ & Htot & Hcount & Hlast & _).
  - vm_compute. reflexivity.
  - vm_compute. reflexivity.
  - vm_compute. reflexivity.
  - discriminate.
  - split; [exact Htot|]. split; [exact Hcount|exact Hlast].
Defined.

(** ** Enablement *)

(** C4, as the code has it. For a registered feature, [setEnablement]
    leaves the stored flag at [!enabled]; it fires one enablement event and
    saves the state when the stored flag was different (undecided
    included), and does nothing at all when the flag already had that
    value, so that a second call with the same value is always a no-op and
    two such calls in a row fire at most one event. After
    [setEnablement(false)] then [setEnablement(true)] the pair is enabled;
    the two calls have fired two events, except from a pair that was
    already disabled, where the first call changes nothing and only one
    event is fired. *)
Theorem setEnablement_fires_iff_changed (s : Service)
    (extension featureId : string) (d : IExtensionFeatureDescriptor)
    (enabled : bool) :
  registry s !! featureId = Some d →
  let event := λ b, {| ee_extension := extension; ee_featureId := featureId;
                       ee_enabled := b |} in
  let s1 := (setEnablement extension featureId enabled s).2 in
  let s2 := run [SetEnablement extension featureId false;
                 SetEnablement extension featureId true] s in
  (setEnablement extension featureId enabled s).1 = Returned tt
  ∧ disabledOf s1 extension featureId = Some (negb enabled)
  ∧ (disabledOf s extension featureId ≠ Some (negb enabled) →
     onDidChangeEnablement s1 = onDidChangeEnablement s ++ [event enabled]
     ∧ storageService s1 = Json (persisted (extensionFeaturesState s1)))
  ∧ (disabledOf s extension featureId = Some (negb enabled) → s1 = s)
  ∧ (setEnablement extension featureId enabled s1).2 = s1
  ∧ (isEnabled extension featureId s2).1 = Returned true
  ∧ onDidChangeEnablement s2
    = onDidChangeEnablement s
      ++ (if bool_decide (disabledOf s extension featureId = Some true)
          then [event true] else [event false; event true]).
Proof.
  intros Hreg event s1 s2.
  assert (∀ b s0, registry s0 !! featureId = Some d →
            ∃ s', setEnablement extension featureId b s0 = (Returned tt, s')
              ∧ registry s' = registry s0
              ∧ disabledOf s' extension featureId = Some (negb b)
              ∧ (disabledOf s0 extension featureId ≠ Some (negb b) →
                 onDidChangeEnablement s'
                   = onDidChangeEnablement s0 ++ [event b]
                 ∧ storageService s'
                   = Json (persisted (extensionFeaturesState s')))
              ∧ (disabledOf s0 extension featureId = Some (negb b) →
                 s' = s0)) as Hcall.
  { intros b s0 Hreg0.
    destruct (setEnablement_spec extension featureId b s0 d Hreg0)
      as (s' & Hrun & Hreg' & Hst & _ & _ & Hchg).
    exists s'. unfold disabledOf at 1. rewrite Hst.
    split; [done|]. split; [done|]. split; [done|]. split.
    - intros Hne. by rewrite bool_decide_eq_false_2 in Hchg.
    - intros Heq. by rewrite bool_decide_eq_true_2 in Hchg. }
  subst s1 s2. unfold run. cbn [foldl exec]. rewrite !bind_run.
  destruct (Hcall enabled s Hreg) as (s1 & Hrun1 & Hreg1 & Hd1 & Hchg1 & Hsame1).
  rewrite Hrun1. cbn [fst snd].
  destruct (Hcall enabled s1) as (s1' & Hrun1' & _ & _ & _ & Hsame1');
    [congruence|].
  rewrite Hrun1'. cbn [snd].
  destruct (Hcall false s Hreg) as (sa & -> & Hrega & Hda & Hchga & Hsamea).
  runM. cbn [snd].
  destruct (Hcall true sa) as (sb & -> & Hregb & Hdb & Hchgb & _);
    [congruence|].
  runM. cbn [snd].
  rewrite isEnabled_run. cbn [fst]. rewrite Hregb, Hrega, Hreg, Hdb.
  split; [done|]. split; [done|]. split; [done|]. split; [done|].
  split; [by apply Hsame1'|]. split; [done|].
  destruct Hchgb as [-> _]; [by rewrite Hda|].
  case_bool_decide as Hwas.
  - by rewrite (Hsamea Hwas).
  - destruct (Hchga Hwas) as [-> _]. by rewrite <- app_assoc.
Qed.

Lemma setEnablement_fires_iff_changed_witness :
  let s := newService repoRegistry NoValue in
  let s2 := run [SetEnablement "pub.ext" "codeActions" false;
                 SetEnablement "pub.ext" "codeActions" true] s in
  (isEnabled "pub.ext" "codeActions" s2).1 = Returned true
  ∧ onDidChangeEnablement s2
    = [ {| ee_extension := "pub.ext"; ee_featureId := "codeActions";
           ee_enabled := false |};
        {| ee_extension := "pub.ext"; ee_featureId := "codeActions";
           ee_enabled := true |} ].
Proof.
  intros s s2.
  destruct (setEnablement_fires_iff_changed s "pub.ext" "codeActions"
              {| label := "Code Actions"; description := None;
                 canToggle := false |} true)
    as (_ & _ & _ & _ & _ & Hen & Hev).
  - vm_compute. reflexivity.
  - split; [exact Hen | exact Hev].
Defined.

(** C4 fails as stated. The pair has been disabled by an earlier
    [setEnablement(false)]. Then [setEnablement(false)] followed by
    [setEnablement(true)] leaves the pair enabled, but the first of the two
    calls changes nothing and fires nothing: one event is fired, not
    two. *)
Lemma setEnablement_false_true_fires_once :
  let s := run [SetEnablement "pub.ext" "codeActions" false]
             (newService repoRegistry NoValue) in
  let s2 := run [SetEnablement "pub.ext" "codeActions" false;
                 SetEnablement "pub.ext" "codeActions" true] s in
  is_Some (registry s !! "codeActions")
  ∧ (isEnabled "pub.ext" "codeActions" s2).1 = Returned true
  ∧ onDidChangeEnablement s2
    = onDidChangeEnablement s
      ++ [ {| ee_extension := "pub.ext"; ee_featureId := "codeActions";
              ee_enabled := true |} ]
  ∧ length (onDidChangeEnablement s2)
    ≠ (length (onDidChangeEnablement s) + 2)%nat.
Proof. vm_compute. repeat split; eauto; done. Qed.

(** * Further properties of the service *)

(** ** The enablement data of a feature *)

Lemma elem_of_map_to_list_lookupState
    (m : gmap string (gmap string IExtensionFeatureState))
    (extension featureId : string) (d : bool) :
  (∃ extensionState, (extension, extensionState) ∈ map_to_list m
     ∧ extensionState !! featureId ≫= disabled = Some d)
  ↔ lookupState m extension featureId ≫= disabled = Some d.
Proof.
  unfold lookupState. split.
  - intros (extensionState & Hin & Hd).
    apply elem_of_map_to_list in Hin. by rewrite Hin.
  - destruct (m !! extension) as [extensionState|] eqn:He; [|done].
    intros Hd. exists extensionState. split; [|done].
    by apply elem_of_map_to_list.
Qed.

(** X1. For a registered feature, [getEnablementData] lists exactly the
    extensions whose pair has a stored decision, each once, with [enabled]
    the negation of the stored flag; undecided pairs are left out. For an
    unregistered id the list is empty. The service is not changed. *)
Theorem getEnablementData_decided (s : Service) (featureId : string) :
  ∃ l, getEnablementData featureId s = (Returned l, s)
    ∧ NoDup l.*1
    ∧ (registry s !! featureId = None → l = [])
    ∧ (is_Some (registry s !! featureId) →
       ∀ extension enabled,
         (extension, enabled) ∈ l
         ↔ disabledOf s extension featureId = Some (negb enabled)).
Proof.
  unfold getEnablementData, getExtensionFeature. runM.
  destruct (registry s !! featureId) as [d|] eqn:Hreg; runM.
  - eexists. split; [reflexivity|].
    set (pick := λ entry : string * gmap string IExtensionFeatureState,
           (entry.2 !! featureId ≫= disabled)
             ≫= λ d0 : bool, Some (entry.1, negb d0)).
    assert (∀ entries : list (string * gmap string IExtensionFeatureState),
              (omap pick entries).*1 `sublist_of` entries.*1) as Hsub.
    { induction entries as [|[e m] entries IH]; [done|]. cbn.
      unfold pick at 1. cbn.
      destruct (m !! featureId ≫= disabled); cbn.
      - by apply sublist_skip.
      - by apply sublist_cons. }
    split; [|split; [done|]].
    + apply (sublist_NoDup _ (map_to_list (extensionFeaturesState s)).*1);
        [apply NoDup_fst_map_to_list|apply Hsub].
    + intros _ extension enabled. unfold disabledOf, stateOf.
      rewrite <- elem_of_map_to_list_lookupState, list_elem_of_omap.
      split.
      * intros ([e m] & Hin & Hpick). unfold pick in Hpick. cbn in Hpick.
        destruct (m !! featureId ≫= disabled) as [d0|] eqn:Hd; [|done].
        cbn in Hpick. injection Hpick as -> <-.
        exists m. by rewrite negb_involutive.
      * intros (m & Hin & Hd). exists (extension, m). split; [done|].
        unfold pick. cbn. rewrite Hd. cbn. by rewrite negb_involutive.
  - exists []. split; [done|]. split; [constructor|]. split; [done|].
    by intros [? ?].
Qed.

Lemma getEnablementData_decided_witness :
  let s := run [SetEnablement "pub.ext" "codeActions" false;
                SetStatus "other.ext" "codeActions" None]
             (newService repoRegistry NoValue) in
  ∃ l, getEnablementData "codeActions" s = (Returned l, s)
    ∧ ("pub.ext", false) ∈ l ∧ ("other.ext", true) ∉ l.
Proof.
  intros s.
  destruct (getEnablementData_decided s "codeActions")
    as (l & Hrun & _ & _ & Hin).
  exists l. split; [exact Hrun|].
  assert (is_Some (registry s !! "codeActions")) as Hreg
    by (vm_compute; eauto).
  split.
  - apply (Hin Hreg). vm_compute. reflexivity.
  - intros Hl. apply (Hin Hreg) in Hl. vm_compute in Hl. discriminate.
Defined.

(** ** Decisions *)

Lemma recordStep_kept o o' g :
  RecordStep o o' g →
  (is_Some o → is_Some o')
  ∧ (is_Some (o ≫= disabled) → is_Some (o' ≫= disabled)).
Proof.
  intros Hstep. destruct Hstep as [o|o d|o st|fs now Hd|o now Hd]; cbn;
    try (split; eauto; fail).
  split; [eauto|]. by destruct o.
Qed.

(** X2. No method deletes a record or takes a decision back: over any
    history of method calls and notifications of the service's own writes,
    a pair that has a record keeps one, and a pair whose flag is decided
    stays decided (only a write of another process can make it undecided
    again). *)
Theorem decided_stays_decided (s : Service) (calls : list Call)
    (extension featureId : string) :
  Forall local calls →
  (is_Some (stateOf s extension featureId) →
   is_Some (stateOf (run calls s) extension featureId))
  ∧ (is_Some (disabledOf s extension featureId) →
     is_Some (disabledOf (run calls s) extension featureId)).
Proof.
  intros Hlocal. revert s.
  induction Hlocal as [|c calls Hc _ IH]; intros s; [done|].
  rewrite run_cons. destruct (IH (exec c s).2) as [IHrec IHdec].
  destruct (recordStep_kept _ _ _
              (exec_recordStep c s extension featureId Hc)) as [Hrec Hdec].
  split; [intros H; apply IHrec, Hrec, H | intros H; apply IHdec, Hdec, H].
Qed.

Lemma decided_stays_decided_witness :
  let s := run [GetAccess "pub.ext" "codeActions" 1000 false]
             (newService repoRegistry NoValue) in
  is_Some (disabledOf
             (run [SetStatus "pub.ext" "codeActions" None;
                   GetAccess "pub.ext" "codeActions" 1001 true;
                   OwnChange] s)
             "pub.ext" "codeActions").
Proof.
  intros s.
  apply (decided_stays_decided s
           [SetStatus "pub.ext" "codeActions" None;
            GetAccess "pub.ext" "codeActions" 1001 true; OwnChange]).
  - repeat (constructor; [exact I|]). constructor.
  - vm_compute. eauto.
Defined.

(** X3. What [getAccess] returns is what [isEnabled] says afterwards, for
    every feature id and state; and once [getAccess] has returned on a
    registered feature the pair is decided, so the dialog is not asked for
    it again. *)
Theorem getAccess_agrees_with_isEnabled (s : Service)
    (extension featureId : string) (now : Z) (confirmed : bool) :
  ∃ b s', getAccess extension featureId now confirmed s = (Returned b, s')
    ∧ isEnabled extension featureId s' = (Returned b, s')
    ∧ (is_Some (registry s !! featureId) →
       disabledOf s' extension featureId = Some (negb b)).
Proof.
  destruct (registry s !! featureId) as [d|] eqn:Hreg.
  - destruct (disabledOf s extension featureId) as [[|]|] eqn:Hd.
    + rewrite (getAccess_disabled _ _ _ _ _ d) by done.
      exists false, s. rewrite isEnabled_run, Hreg, Hd. by repeat split.
    + rewrite (getAccess_enabled _ _ _ _ _ d) by done.
      destruct (disabledOf_Some _ _ _ _ Hd) as (fs & Hfs & Hdis).
      destruct (recordAccess_spec extension featureId now s fs Hfs)
        as (s' & -> & Hreg' & Hst & _).
      exists true, s'. rewrite isEnabled_run, Hreg', Hreg.
      unfold disabledOf. rewrite Hst. cbn. rewrite Hdis. by repeat split.
    + rewrite (getAccess_undecided _ _ _ _ _ d) by done.
      destruct (setEnablement_spec extension featureId confirmed s d Hreg)
        as (s1 & Hrun1 & Hreg1 & Hst1 & _).
      destruct confirmed; rewrite Hrun1; cbn [snd].
      * destruct (recordAccess_spec extension featureId now s1 _ Hst1)
          as (s2 & -> & Hreg2 & Hst2 & _).
        exists true, s2. rewrite isEnabled_run, Hreg2, Hreg1, Hreg.
        unfold disabledOf. rewrite Hst2. by repeat split.
      * exists false, s1. rewrite isEnabled_run, Hreg1, Hreg.
        unfold disabledOf. rewrite Hst1. by repeat split.
  - rewrite getAccess_unregistered by done. exists false, s.
    rewrite isEnabled_run, Hreg. split; [done|]. split; [done|].
    by intros [? ?].
Qed.

(** X4. The answer of the dialog matters for undecided pairs of registered
    features only: for a pair whose flag is decided, and for an
    unregistered feature id, [getAccess] does the same whatever the answer
    would be. *)
Theorem getAccess_ignores_dialog_when_decided (s : Service)
    (extension featureId : string) (now : Z) (confirmed confirmed' : bool) :
  is_Some (disabledOf s extension featureId)
    ∨ registry s !! featureId = None →
  getAccess extension featureId now confirmed s
  = getAccess extension featureId now confirmed' s.
Proof.
  intros Hcase.
  destruct (registry s !! featureId) as [d|] eqn:Hreg;
    [|by rewrite !getAccess_unregistered].
  destruct Hcase as [[[|] Hd]|]; [| |done].
  - by rewrite !(getAccess_disabled _ _ _ _ _ d).
  - by rewrite !(getAccess_enabled _ _ _ _ _ d).
Qed.

Lemma getAccess_ignores_dialog_when_decided_witness :
  let s := run [SetEnablement "pub.ext" "codeActions" true]
             (newService repoRegistry NoValue) in
  getAccess "pub.ext" "codeActions" 1000 true s
  = getAccess "pub.ext" "codeActions" 1000 false s.
Proof.
  intros s.
  apply (getAccess_ignores_dialog_when_decided s "pub.ext" "codeActions").
  left. vm_compute. eauto.
Defined.

(** X5. An explicit decision governs the next access. After
    [setEnablement(..., true)] on a registered feature, [getAccess] is
    granted and counted without a further enablement event; after
    [setEnablement(..., false)] it is refused and leaves the service
    exactly as it was: nothing counted, fired or stored. *)
Theorem setEnablement_then_getAccess (s : Service)
    (extension featureId : string) (d : IExtensionFeatureDescriptor)
    (enabled : bool) (now : Z) (confirmed : bool) :
  registry s !! featureId = Some d →
  let s1 := (setEnablement extension featureId enabled s).2 in
  let s2 := (getAccess extension featureId now confirmed s1).2 in
  (getAccess extension featureId now confirmed s1).1 = Returned enabled
  ∧ onDidChangeEnablement s2 = onDidChangeEnablement s1
  ∧ totalOf s2 extension featureId
    = totalOf s extension featureId + (if enabled then 1 else 0)
  ∧ (enabled = false → s2 = s1).
Proof.
  intros Hreg s1 s2. subst s1 s2.
  destruct (setEnablement_spec extension featureId enabled s d Hreg)
    as (s1 & -> & Hreg1 & Hst1 & _). cbn [snd].
  assert (disabledOf s1 extension featureId = Some (negb enabled)) as Hd1
    by (unfold disabledOf; by rewrite Hst1).
  assert (registry s1 !! featureId = Some d) as Hreg1' by congruence.
  destruct enabled; cbn [negb] in *.
  - rewrite (getAccess_enabled _ _ _ _ _ d) by done.
    destruct (recordAccess_spec extension featureId now s1 _ Hst1)
      as (s2 & -> & _ & Hst2 & _ & Hen & _). cbn [fst snd].
    unfold totalOf. rewrite Hst2.
    split; [done|]. split; [done|]. split; [|done].
    by destruct (stateOf s extension featureId).
  - rewrite (getAccess_disabled _ _ _ _ _ d) by done. cbn [fst snd].
    unfold totalOf. rewrite Hst1.
    split; [done|]. split; [done|]. split; [|done].
    destruct (stateOf s extension featureId); cbn; lia.
Qed.

Lemma setEnablement_then_getAccess_witness :
  let s := newService repoRegistry NoValue in
  let s1 := (setEnablement "pub.ext" "jsonValidation" false s).2 in
  (getAccess "pub.ext" "jsonValidation" 1000 true s1).1 = Returned false
  ∧ (getAccess "pub.ext" "jsonValidation" 1000 true s1).2 = s1.
Proof.
  intros s s1.
  destruct (setEnablement_then_getAccess s "pub.ext" "jsonValidation"
              {| label := "JSON Validation"; description := None;
                 canToggle := false |} false 1000 true)
    as (Hret & _ & _ & Hsame).
  - vm_compute. reflexivity.
  - split; [exact Hret|]. by apply Hsame.
Defined.

(** ** Pairs are independent *)

(** X6. A method call only touches the record of the pair it is called
    for: the records of all other pairs, of the same extension or of the
    same feature included, are left as they were; calls that are about no
    pair ([getEnablementData], the notification of an own write) touch no
    record at all. *)
Theorem calls_leave_other_pairs (c : Call) (s : Service)
    (extension featureId : string) :
  local c →
  target c ≠ Some (extension, featureId) →
  stateOf (exec c s).2 extension featureId = stateOf s extension featureId.
Proof.
  intros Hlocal Htarget.
  assert (∀ e0 f0, Some (e0, f0) ≠ Some (extension, featureId) →
            extension ≠ e0 ∨ featureId ≠ f0) as Hne.
  { intros e0 f0 Hneq. apply other_pair. intros [-> ->]. by apply Hneq. }
  destruct c as [e0 f0|e0 f0 enabled|f0|e0 f0 now confirmed|e0 f0|e0 f0 st
                 |stored|]; cbn [exec target] in *; try done.
  - by rewrite bind_run, isEnabled_run.
  - rewrite bind_run.
    destruct (registry s !! f0) as [d|] eqn:Hreg.
    + destruct (setEnablement_spec e0 f0 enabled s d Hreg)
        as (s' & -> & _ & _ & Hother & _). cbn. by apply Hother, Hne.
    + unfold setEnablement, getExtensionFeature. runM. by rewrite Hreg.
  - rewrite bind_run.
    pose proof (getEnablementData_run f0 s) as Hrun.
    destruct (getEnablementData f0 s) as [[l|msg] s']; cbn in *; by subst.
  - rewrite bind_run.
    destruct (registry s !! f0) as [d|] eqn:Hreg;
      [|by rewrite getAccess_unregistered].
    destruct (disabledOf s e0 f0) as [[|]|] eqn:Hd.
    + by rewrite (getAccess_disabled _ _ _ _ _ d).
    + rewrite (getAccess_enabled _ _ _ _ _ d) by done.
      destruct (disabledOf_Some _ _ _ _ Hd) as (fs & Hfs & _).
      destruct (recordAccess_spec e0 f0 now s fs Hfs)
        as (s' & -> & _ & _ & Hother & _). cbn. by apply Hother, Hne.
    + rewrite (getAccess_undecided _ _ _ _ _ d) by done.
      destruct (setEnablement_spec e0 f0 confirmed s d Hreg)
        as (s1 & Hrun1 & _ & Hst1 & Hother1 & _).
      destruct confirmed; rewrite Hrun1; cbn [fst snd].
      * destruct (recordAccess_spec e0 f0 now s1 _ Hst1)
          as (s2 & -> & _ & _ & Hother2 & _). cbn.
        by rewrite Hother2, Hother1 by (by apply Hne).
      * cbn. by apply Hother1, Hne.
  - by rewrite bind_run, getAccessData_run.
  - rewrite bind_run.
    destruct (registry s !! f0) as [d|] eqn:Hreg.
    + destruct (setStatus_spec e0 f0 st s d Hreg)
        as (s' & -> & _ & _ & Hother & _). cbn. by apply Hother, Hne.
    + unfold setStatus, getExtensionFeature. runM. by rewrite Hreg.
Qed.

Lemma calls_leave_other_pairs_witness :
  let s := run [GetAccess "pub.ext" "codeActions" 1000 true]
             (newService repoRegistry NoValue) in
  stateOf (exec (SetEnablement "pub.ext" "jsonValidation" false) s).2
    "pub.ext" "codeActions"
  = stateOf s "pub.ext" "codeActions".
Proof.
  intros s.
  apply (calls_leave_other_pairs
           (SetEnablement "pub.ext" "jsonValidation" false) s).
  - exact I.
  - discriminate.
Defined.

Lemma getAccess_agrees_with_isEnabled_witness :
  let s := newService repoRegistry NoValue in
  ∃ b s', getAccess "pub.ext" "codeActions" 1000 false s = (Returned b, s')
    ∧ isEnabled "pub.ext" "codeActions" s' = (Returned b, s')
    ∧ disabledOf s' "pub.ext" "codeActions" = Some (negb b).
Proof.
  intros s.
  destruct (getAccess_agrees_with_isEnabled s "pub.ext" "codeActions"
              1000 false) as (b & s' & Hrun & Hen & Hdec).
  exists b, s'. split; [exact Hrun|]. split; [exact Hen|].
  apply Hdec. vm_compute. eauto.
Defined.

(** ** What a restart keeps *)

Lemma inSync_saved (s : Service) :
  storageService s = Json (persisted (extensionFeaturesState s)) → inSync s.
Proof.
  intros Hsto extension featureId. rewrite Hsto, storedOf_persisted.
  unfold disabledOf, totalOf, stateOf.
  by destruct (lookupState (extensionFeaturesState s) extension featureId).
Qed.

Lemma inSync_loaded (reg : gmap string IExtensionFeatureDescriptor)
    (stored : StoredValue) :
  inSync (newService reg stored).
Proof.
  intros extension featureId. unfold disabledOf, totalOf, stateOf.
  cbn [newService storageService extensionFeaturesState].
  rewrite lookupState_restored.
  by destruct (storedOf stored extension featureId).
Qed.

Lemma exec_inSync (c : Call) (s : Service) : inSync s → inSync (exec c s).2.
Proof.
  intros Hsync.
  destruct c as [e0 f0|e0 f0 enabled|f0|e0 f0 now confirmed|e0 f0|e0 f0 st
                 |stored|]; cbn [exec].
  - by rewrite bind_run, isEnabled_run.
  - rewrite bind_run.
    destruct (registry s !! f0) as [d|] eqn:Hreg.
    + destruct (setEnablement_spec e0 f0 enabled s d Hreg)
        as (s' & -> & _ & _ & _ & _ & Hchg). cbn.
      case_bool_decide; [by subst|]. apply inSync_saved, Hchg.
    + unfold setEnablement, getExtensionFeature. runM. by rewrite Hreg.
  - rewrite bind_run.
    pose proof (getEnablementData_run f0 s) as Hrun.
    destruct (getEnablementData f0 s) as [[l|msg] s']; cbn in *; by subst.
  - rewrite bind_run.
    destruct (registry s !! f0) as [d|] eqn:Hreg;
      [|by rewrite getAccess_unregistered].
    destruct (disabledOf s e0 f0) as [[|]|] eqn:Hd.
    + by rewrite (getAccess_disabled _ _ _ _ _ d).
    + rewrite (getAccess_enabled _ _ _ _ _ d) by done.
      destruct (disabledOf_Some _ _ _ _ Hd) as (fs & Hfs & _).
      destruct (recordAccess_spec e0 f0 now s fs Hfs)
        as (s' & -> & _ & _ & _ & _ & _ & Hsto). cbn.
      by apply inSync_saved.
    + rewrite (getAccess_undecided _ _ _ _ _ d) by done.
      destruct (setEnablement_spec e0 f0 confirmed s d Hreg)
        as (s1 & Hrun1 & _ & Hst1 & _ & _ & Hchg).
      rewrite bool_decide_eq_false_2 in Hchg by (by rewrite Hd).
      destruct confirmed; rewrite Hrun1; cbn [fst snd].
      * destruct (recordAccess_spec e0 f0 now s1 _ Hst1)
          as (s2 & -> & _ & _ & _ & _ & _ & Hsto). cbn.
        by apply inSync_saved.
      * cbn. apply inSync_saved, Hchg.
  - by rewrite bind_run, getAccessData_run.
  - rewrite bind_run.
    destruct (registry s !! f0) as [d|] eqn:Hreg.
    + destruct (setStatus_spec e0 f0 st s d Hreg)
        as (s' & -> & _ & Hst & Hother & _ & _ & Hsto). cbn.
      intros extension featureId. rewrite Hsto.
      destruct (Hsync extension featureId) as [Hdis Htot].
      rewrite Hdis, Htot. unfold disabledOf, totalOf.
      destruct (decide (e0 = extension ∧ f0 = featureId)) as [[-> ->]|Hne].
      * rewrite Hst. by destruct (stateOf s extension featureId).
      * by rewrite Hother by (by apply other_pair).
    + unfold setStatus, getExtensionFeature. runM. by rewrite Hreg.
  - change (inSync (exec (ExternalWrite stored) s).2).
    intros extension featureId.
    destruct (exec_ExternalWrite stored s extension featureId)
      as (_ & _ & Hsto & Hst).
    unfold disabledOf, totalOf. rewrite Hsto, Hst.
    by destruct (storedOf stored extension featureId).
  - done.
Qed.

(** X7. The stored value never lags behind what matters: in every state
    the service can be in, a service constructed anew over the stored value
    (a restart) has, for every pair, the same [disabled] flag and the same
    [totalCount], hence the same [isEnabled]; what a restart loses is the
    current-session part only. This holds although [setStatus] never saves
    and a refused [getAccess] on a disabled pair does not either. *)
Theorem restart_keeps_decisions_and_totals (s : Service)
    (extension featureId : string) :
  reachable s →
  let s' := newService (registry s) (storageService s) in
  disabledOf s' extension featureId = disabledOf s extension featureId
  ∧ totalOf s' extension featureId = totalOf s extension featureId
  ∧ (isEnabled extension featureId s').1
    = (isEnabled extension featureId s).1
  ∧ currentOf s' extension featureId = None.
Proof.
  intros (reg & stored & calls & ->) s'.
  assert (inSync (run calls (newService reg stored))) as Hsync.
  { induction calls as [|c calls IH] using rev_ind;
      [apply inSync_loaded|].
    rewrite run_snoc. by apply exec_inSync. }
  destruct (Hsync extension featureId) as [Hdis Htot].
  destruct (inSync_loaded (registry (run calls (newService reg stored)))
              (storageService (run calls (newService reg stored)))
              extension featureId) as [Hdis' Htot'].
  fold s' in Hdis', Htot'.
  assert (storageService s'
          = storageService (run calls (newService reg stored))) as Hsto
    by done.
  rewrite Hsto in Hdis', Htot'.
  assert (disabledOf s' extension featureId
          = disabledOf (run calls (newService reg stored))
              extension featureId) as Heq by congruence.
  split; [done|]. split; [congruence|]. split.
  - rewrite !isEnabled_run. cbn [fst].
    replace (registry s') with
      (registry (run calls (newService reg stored))) by done.
    by rewrite Heq.
  - unfold currentOf, stateOf. subst s'.
    cbn [newService extensionFeaturesState]. rewrite lookupState_restored.
    by destruct (storedOf _ extension featureId).
Qed.

Lemma restart_keeps_decisions_and_totals_witness :
  let s := run [GetAccess "pub.ext" "codeActions" 1000 true;
                SetStatus "pub.ext" "codeActions" None;
                SetStatus "pub.ext" "jsonValidation" None]
             (newService repoRegistry Malformed) in
  let s' := newService (registry s) (storageService s) in
  totalOf s' "pub.ext" "codeActions" = totalOf s "pub.ext" "codeActions"
  ∧ disabledOf s' "pub.ext" "jsonValidation"
    = disabledOf s "pub.ext" "jsonValidation".
Proof.
  intros s s'.
  destruct (restart_keeps_decisions_and_totals s "pub.ext" "codeActions")
    as (_ & Htot & _); [by eexists _, _, _|].
  destruct (restart_keeps_decisions_and_totals s "pub.ext" "jsonValidation")
    as (Hdis & _); [by eexists _, _, _|].
  split; [exact Htot | exact Hdis].
Defined.

(** ** What the storage listener announces *)

Lemma forEach_acc {A} (xs : list A) (body : A → M unit)
    (I : list A → Service → Prop) :
  (∀ seen x s, I seen s → ∃ s', body x s = (Returned tt, s') ∧ I (seen ++ [x]) s') →
  ∀ s, I [] s → ∃ s', forEach xs body s = (Returned tt, s') ∧ I xs s'.
Proof.
  intros Hbody.
  assert (∀ seen s, I seen s →
            ∃ s', forEach xs body s = (Returned tt, s') ∧ I (seen ++ xs) s')
    as Hgen.
  { induction xs as [|x xs IH]; intros seen s Hs; cbn [forEach].
    - exists s. by rewrite app_nil_r.
    - rewrite bind_run. destruct (Hbody seen x s Hs) as (s1 & -> & Hs1).
      destruct (IH (seen ++ [x]) s1 Hs1) as (s2 & -> & Hs2).
      exists s2. by rewrite <- app_assoc in Hs2. }
  intros s Hs. by apply (Hgen [] s).
Qed.

Lemma onDidStorageChange_fires (s : Service) :
  ∃ s', onDidStorageChange true s = (Returned tt, s')
    ∧ registry s' = registry s
    ∧ extensionFeaturesState s' = restored (storageService s)
    ∧ storageService s' = storageService s
    ∧ onDidChangeEnablement s'
      = onDidChangeEnablement s
        ++ enablementFired (registry s) (extensionFeaturesState s)
             (restored (storageService s))
    ∧ onDidChangeAccessData s'
      = onDidChangeAccessData s
        ++ accessDataFired (registry s) (extensionFeaturesState s)
             (restored (storageService s)).
Proof.
  unfold onDidStorageChange, loadState. runM.
  set (old := extensionFeaturesState s).
  set (new := restored (storageService s)).
  set (core := λ s' : Service,
         registry s' = registry s ∧ extensionFeaturesState s' = new
         ∧ storageService s' = storageService s).
  set (I := λ (seen : list string) (s' : Service),
         core s'
         ∧ onDidChangeEnablement s'
           = onDidChangeEnablement s
             ++ (seen ≫= λ e, reloadFeatures old new e
                   ≫= enablementChange (registry s) old new e)
         ∧ onDidChangeAccessData s'
           = onDidChangeAccessData s
             ++ (seen ≫= λ e, reloadFeatures old new e
                   ≫= accessDataChange (registry s) old new e)).
  match goal with
  | |- ∃ s', forEach ?xs ?body ?s0 = _ ∧ _ =>
      cut (∃ s', forEach xs body s0 = (Returned tt, s') ∧ I xs s');
        [ intros (s' & -> & (Hreg & Hst & Hsto) & Hen & Hacc); by exists s'
        | apply (forEach_acc xs body I);
            [|unfold I, core; cbn [mbind list_bind]; by rewrite !app_nil_r] ]
  end.
  intros seen e s0 (Hcore & Hen & Hacc).
  set (J := λ (fseen : list string) (s' : Service),
         core s'
         ∧ onDidChangeEnablement s'
           = onDidChangeEnablement s0
             ++ (fseen ≫= enablementChange (registry s) old new e)
         ∧ onDidChangeAccessData s'
           = onDidChangeAccessData s0
             ++ (fseen ≫= accessDataChange (registry s) old new e)).
  match goal with
  | |- ∃ s', forEach ?xs ?body ?s0 = _ ∧ _ =>
      cut (∃ s', forEach xs body s0 = (Returned tt, s') ∧ J xs s');
        [ intros (s1 & Hrun & Hcore1 & Hen1 & Hacc1)
        | apply (forEach_acc xs body J);
            [|unfold J; cbn [mbind list_bind]; by rewrite !app_nil_r] ]
  end.
  2: { intros fseen f s1 ((Hreg1 & Hst1 & Hsto1) & Hen1 & Hacc1).
    rewrite bind_run, isEnabled_run. cbn beta iota. rewrite bind_run.
    unfold when, disabledOf, stateOf. rewrite Hreg1, Hst1.
    change (old !! e ≫= λ m, m !! f) with (lookupState old e f).
    unfold J, core. rewrite !bind_app. cbn [mbind list_bind].
    rewrite !app_nil_r, !app_assoc, <- Hen1, <- Hacc1.
    unfold enablementChange, accessDataChange.
    match goal with
    | |- context [if ?c then fireEnablement _ else _] => destruct c
    end;
      unfold fireEnablement, modify; cbn [mret M_ret]; cbn beta iota;
      rewrite bind_run, getAccessData_run; cbn beta iota;
      unfold stateOf; fields; rewrite Hreg1, Hst1;
      case_bool_decide; unfold fireAccessData, modify; cbn [mret M_ret];
      (eexists; split; [reflexivity|]); fields; rewrite ?app_nil_r;
      by repeat split. }
  exists s1. split; [exact Hrun|]. unfold I. rewrite !bind_app.
  cbn [mbind list_bind]. rewrite !app_nil_r, !app_assoc, <- Hen, <- Hacc.
  done.
Qed.

Lemma elem_of_enablementChange reg old new extensionId featureId ev :
  ev ∈ enablementChange reg old new extensionId featureId
  ↔ ∃ enabledNow,
      ev = {| ee_extension := extensionId; ee_featureId := featureId;
              ee_enabled := enabledNow |}
      ∧ enabledNow
        = match reg !! featureId with
          | None => false
          | Some _ =>
              negb (default false
                      (lookupState new extensionId featureId ≫= disabled))
          end
      ∧ enabledNow
        ≠ negb (default false
                  (lookupState old extensionId featureId ≫= disabled)).
Proof.
  unfold enablementChange. cbv zeta.
  match goal with
  | |- context [eqb ?now ?was] =>
      generalize now; generalize was; intros wasEnabled enabledNow
  end.
  destruct (eqb enabledNow wasEnabled) eqn:Heq; cbn [negb].
  - apply eqb_prop in Heq. split; [by intros ?%elem_of_nil|].
    intros (b & _ & -> & Hne). done.
  - apply eqb_false_iff in Heq. rewrite list_elem_of_singleton. split.
    + intros ->. by exists enabledNow.
    + by intros (b & -> & -> & _).
Qed.

Lemma elem_of_accessDataChange reg old new extensionId featureId ev :
  ev ∈ accessDataChange reg old new extensionId featureId
  ↔ ∃ newAccessData,
      ev = {| ad_extension := extensionId; ad_featureId := featureId;
              ad_accessData := Some (default
                {| totalCount := 0; current := None |} newAccessData) |}
      ∧ newAccessData
        = match reg !! featureId with
          | None => None
          | Some _ => accessData <$> lookupState new extensionId featureId
          end
      ∧ newAccessData
        ≠ accessData <$> lookupState old extensionId featureId.
Proof.
  unfold accessDataChange. cbv zeta.
  match goal with
  | |- context [bool_decide (?a ≠ _)] =>
      generalize a; intros newAccessData
  end.
  case_bool_decide as Hne.
  - rewrite list_elem_of_singleton. split.
    + intros ->. by exists newAccessData.
    + by intros (a & -> & -> & _).
  - split; [by intros ?%elem_of_nil|].
    intros (a & _ & -> & Hne'). done.
Qed.

Lemma elem_of_reload old new extensionId featureId :
  extensionId ∈ elements (dom old ∪ dom new)
  ∧ featureId ∈ reloadFeatures old new extensionId
  ↔ is_Some (lookupState old extensionId featureId)
    ∨ is_Some (lookupState new extensionId featureId).
Proof.
  unfold reloadFeatures, lookupState.
  rewrite !elem_of_elements, !elem_of_union, !elem_of_dom.
  destruct (old !! extensionId) as [mo|] eqn:Ho,
           (new !! extensionId) as [mn|] eqn:Hn; cbn;
    rewrite ?dom_empty_L, ?elem_of_dom, ?elem_of_empty;
    split; try tauto;
    intros [[? ?]|[? ?]]; first [done | split; eauto].
Qed.

Lemma NoDup_reload {A} (old new : gmap string (gmap string IExtensionFeatureState))
    (change : string → string → list A) (key : A → string * string) :
  (∀ e f x, x ∈ change e f → key x = (e, f)) →
  (∀ e f, NoDup (change e f)) →
  NoDup (e ← elements (dom old ∪ dom new);
         f ← reloadFeatures old new e; change e f).
Proof.
  intros Hkey Hone. apply NoDup_bind; [| |apply NoDup_elements].
  - intros e1 e2 x _ _ (f1 & Hx1 & _)%list_elem_of_bind
      (f2 & Hx2 & _)%list_elem_of_bind.
    apply Hkey in Hx1, Hx2. congruence.
  - intros e _. apply NoDup_bind; [|by intros|apply NoDup_elements].
    intros f1 f2 x _ _ Hx1 Hx2. apply Hkey in Hx1, Hx2. congruence.
Qed.

Lemma exec_ExternalWrite_fires (stored : StoredValue) (s : Service) :
  registry (exec (ExternalWrite stored) s).2 = registry s
  ∧ extensionFeaturesState (exec (ExternalWrite stored) s).2
    = restored stored
  ∧ onDidChangeEnablement (exec (ExternalWrite stored) s).2
    = onDidChangeEnablement s
      ++ enablementFired (registry s) (extensionFeaturesState s)
           (restored stored)
  ∧ onDidChangeAccessData (exec (ExternalWrite stored) s).2
    = onDidChangeAccessData s
      ++ accessDataFired (registry s) (extensionFeaturesState s)
           (restored stored).
Proof.
  cbn [exec]. runM.
  destruct (onDidStorageChange_fires (with_storage stored s))
    as (s' & -> & Hreg & Hst & _ & Hen & Hacc). runM. cbn [snd].
  by rewrite Hreg, Hst, Hen, Hacc.
Qed.

(** X8. When another process has written the stored value, the listener
    tells the enablement listeners of every change of a registered feature,
    and of nothing else about registered features: an event for a pair and
    a value is fired exactly when [isEnabled] of the pair is that value
    after the reload and was not before; and no event is fired twice. *)
Theorem external_write_announces_enablement (s : Service)
    (stored : StoredValue) :
  let s' := (exec (ExternalWrite stored) s).2 in
  ∃ fired,
    onDidChangeEnablement s' = onDidChangeEnablement s ++ fired
    ∧ NoDup fired
    ∧ (∀ extension featureId enabled,
         is_Some (registry s !! featureId) →
         {| ee_extension := extension; ee_featureId := featureId;
            ee_enabled := enabled |} ∈ fired
         ↔ (isEnabled extension featureId s').1 = Returned enabled
           ∧ (isEnabled extension featureId s).1 ≠ Returned enabled).
Proof.
  intros s'. subst s'.
  destruct (exec_ExternalWrite_fires stored s) as (Hreg & Hst & Hen & _).
  eexists. split; [exact Hen|]. split.
  { apply (NoDup_reload _ _ _ (λ ev, (ee_extension ev, ee_featureId ev))).
    - by intros e f ev (b & -> & _)%elem_of_enablementChange.
    - intros e f. unfold enablementChange.
      destruct (negb _); [apply NoDup_singleton|apply NoDup_nil_2]. }
  intros extension featureId enabled [d Hd].
  rewrite !isEnabled_run. cbn [fst]. rewrite Hreg, Hd.
  unfold disabledOf, stateOf. rewrite Hst.
  unfold enablementFired. split.
  - intros (e & (f & Hev & _)%list_elem_of_bind & _)%list_elem_of_bind.
    apply elem_of_enablementChange in Hev as (b & Heq & Hnow & Hwas).
    injection Heq as <- <- <-. rewrite Hd in Hnow.
    split; [by rewrite <- Hnow|]. congruence.
  - intros [[= Hnow] Hwas].
    apply list_elem_of_bind. exists extension.
    assert (is_Some (lookupState (extensionFeaturesState s)
                       extension featureId)
            ∨ is_Some (lookupState (restored stored) extension featureId))
      as [He Hf]%elem_of_reload.
    { destruct (lookupState (extensionFeaturesState s) extension featureId);
        [left; eauto|].
      destruct (lookupState (restored stored) extension featureId);
        [right; eauto|].
      cbn in *. subst. done. }
    split; [|done]. apply list_elem_of_bind. exists featureId.
    split; [|done]. apply elem_of_enablementChange.
    exists enabled. rewrite Hd. split; [done|]. split; [done|].
    intros Heq. apply Hwas. by rewrite <- Heq.
Qed.

Lemma external_write_announces_enablement_witness :
  let s := run [SetEnablement "pub.ext" "codeActions" false]
             (newService repoRegistry NoValue) in
  let s' := (exec (ExternalWrite NoValue) s).2 in
  ∃ fired,
    onDidChangeEnablement s' = onDidChangeEnablement s ++ fired
    ∧ {| ee_extension := "pub.ext"; ee_featureId := "codeActions";
         ee_enabled := true |} ∈ fired.
Proof.
  intros s s'.
  destruct (external_write_announces_enablement s NoValue)
    as (fired & Hev & _ & Hin).
  exists fired. split; [exact Hev|].
  apply Hin; [vm_compute; eauto|]. vm_compute. split; [done|discriminate].
Defined.

(** X9. For a feature id that is not registered the listener announces a
    disabling that did not happen: whenever the pair has a record before the
    reload or an entry in the stored value, and was not recorded as
    disabled, an event with [enabled] false is fired, although [isEnabled]
    was false before as well; it never fires one with [enabled] true. *)
Theorem external_write_unregistered_enablement (s : Service)
    (stored : StoredValue) (extension featureId : string) (enabled : bool) :
  registry s !! featureId = None →
  let s' := (exec (ExternalWrite stored) s).2 in
  isEnabled extension featureId s = (Returned false, s)
  ∧ isEnabled extension featureId s' = (Returned false, s')
  ∧ ∃ fired,
      onDidChangeEnablement s' = onDidChangeEnablement s ++ fired
      ∧ ({| ee_extension := extension; ee_featureId := featureId;
            ee_enabled := enabled |} ∈ fired
         ↔ enabled = false
           ∧ (is_Some (stateOf s extension featureId)
              ∨ is_Some (storedOf stored extension featureId))
           ∧ disabledOf s extension featureId ≠ Some true).
Proof.
  intros Hd s'. subst s'.
  destruct (exec_ExternalWrite_fires stored s) as (Hreg & Hst & Hen & _).
  rewrite !isEnabled_run, Hreg, Hd. split; [done|]. split; [done|].
  eexists. split; [exact Hen|].
  assert (is_Some (storedOf stored extension featureId)
          ↔ is_Some (lookupState (restored stored) extension featureId))
    as ->.
  { rewrite lookupState_restored.
    by destruct (storedOf stored extension featureId);
      cbn; rewrite <- ?not_eq_None_Some. }
  unfold enablementFired, disabledOf, stateOf. split.
  - intros (e & (f & Hev & Hf)%list_elem_of_bind & He)%list_elem_of_bind.
    apply elem_of_enablementChange in Hev as (b & Heq & Hnow & Hwas).
    injection Heq as <- <- <-. rewrite Hd in Hnow.
    split; [done|]. split; [by apply elem_of_reload|].
    intros Hdis. rewrite Hdis in Hwas. by subst.
  - intros (-> & [He Hf]%elem_of_reload & Hdis).
    apply list_elem_of_bind. exists extension. split; [|done].
    apply list_elem_of_bind. exists featureId. split; [|done].
    apply elem_of_enablementChange. exists false. rewrite Hd.
    split; [done|]. split; [done|].
    destruct (lookupState (extensionFeaturesState s) extension featureId
              ≫= disabled) as [[|]|]; done.
Qed.

Lemma external_write_unregistered_enablement_witness :
  let s := newService repoRegistry
             (Json {[ "pub.ext" := {[ "chat" :=
                        {| p_disabled := None; accessCount := 2 |} ]} ]}) in
  let s' := (exec (ExternalWrite (storageService s)) s).2 in
  ∃ fired,
    onDidChangeEnablement s' = onDidChangeEnablement s ++ fired
    ∧ {| ee_extension := "pub.ext"; ee_featureId := "chat";
         ee_enabled := false |} ∈ fired.
Proof.
  intros s s'.
  destruct (external_write_unregistered_enablement s (storageService s)
              "pub.ext" "chat" false)
    as (_ & _ & fired & Hev & Hin); [vm_compute; reflexivity|].
  exists fired. split; [exact Hev|].
  apply Hin. split; [done|]. split; [left; vm_compute; eauto|].
  vm_compute. discriminate.
Defined.

(** X10. The access-data listeners are told, once per pair, of every
    pair whose access data as [getAccessData] gives it after the reload
    differs from the access data of the record it had; the event carries
    the new data, or [{ totalCount: 0 }] when there is none. As a reload
    brings no current-session part, every pair of a registered feature
    that had one is announced, with [current] absent. *)
Theorem external_write_announces_accessData (s : Service)
    (stored : StoredValue) :
  let s' := (exec (ExternalWrite stored) s).2 in
  ∃ fired,
    onDidChangeAccessData s' = onDidChangeAccessData s ++ fired
    ∧ NoDup ((λ ev, (ad_extension ev, ad_featureId ev)) <$> fired)
    ∧ (∀ extension featureId payload,
         {| ad_extension := extension; ad_featureId := featureId;
            ad_accessData := payload |} ∈ fired
         ↔ ∃ newAccessData,
             (getAccessData extension featureId s').1
               = Returned newAccessData
             ∧ payload = Some (default {| totalCount := 0; current := None |}
                                 newAccessData)
             ∧ newAccessData
               ≠ accessData <$> stateOf s extension featureId)
    ∧ (∀ extension featureId,
         is_Some (registry s !! featureId) →
         is_Some (currentOf s extension featureId) →
         {| ad_extension := extension; ad_featureId := featureId;
            ad_accessData := Some
              {| totalCount := totalOf s' extension featureId;
                 current := None |} |} ∈ fired).
Proof.
  intros s'. subst s'.
  destruct (exec_ExternalWrite_fires stored s) as (Hreg & Hst & _ & Hacc).
  assert (∀ extension featureId payload,
            {| ad_extension := extension; ad_featureId := featureId;
               ad_accessData := payload |}
              ∈ accessDataFired (registry s) (extensionFeaturesState s)
                  (restored stored)
            ↔ ∃ newAccessData,
                (getAccessData extension featureId
                   (exec (ExternalWrite stored) s).2).1
                  = Returned newAccessData
                ∧ payload = Some (default
                    {| totalCount := 0; current := None |} newAccessData)
                ∧ newAccessData
                  ≠ accessData <$> stateOf s extension featureId) as Hin.
  { intros extension featureId payload.
    rewrite getAccessData_run. cbn [fst]. rewrite Hreg.
    unfold stateOf. rewrite Hst. unfold accessDataFired. split.
    - intros (e & (f & Hev & _)%list_elem_of_bind & _)%list_elem_of_bind.
      apply elem_of_accessDataChange in Hev as (a & Heq & Hnow & Hold).
      injection Heq as <- <- ->. exists a. by rewrite <- Hnow.
    - intros (a & [= <-] & -> & Hold).
      apply list_elem_of_bind. exists extension.
      assert (is_Some (lookupState (extensionFeaturesState s)
                         extension featureId)
              ∨ is_Some (lookupState (restored stored) extension featureId))
        as [He Hf]%elem_of_reload.
      { destruct (lookupState (extensionFeaturesState s) extension
                    featureId); [left; eauto|].
        destruct (lookupState (restored stored) extension featureId);
          [right; eauto|].
        by destruct (registry s !! featureId). }
      split; [|done]. apply list_elem_of_bind. exists featureId.
      split; [|done]. apply elem_of_accessDataChange. eauto. }
  eexists. split; [exact Hacc|]. split; [|split; [exact Hin|]].
  - apply NoDup_fmap_2_strong; [|].
    + intros [e1 f1 a1] [e2 f2 a2] H1 H2 [= <- <-].
      apply Hin in H1 as (b1 & Hb1 & -> & _).
      apply Hin in H2 as (b2 & Hb2 & -> & _). congruence.
    + apply (NoDup_reload _ _ _ (λ ev, (ad_extension ev, ad_featureId ev))).
      * by intros e f ev (b & -> & _)%elem_of_accessDataChange.
      * intros e f. unfold accessDataChange.
        case_bool_decide; [apply NoDup_singleton|apply NoDup_nil_2].
  - intros extension featureId [d Hd] [cur Hcur].
    apply Hin. rewrite getAccessData_run. cbn [fst]. rewrite Hreg, Hd.
    eexists. split; [reflexivity|].
    unfold totalOf, currentOf, stateOf in *. rewrite Hst in *.
    rewrite lookupState_restored.
    destruct (lookupState (extensionFeaturesState s) extension featureId)
      as [fs|]; [|done]. cbn in Hcur.
    destruct (storedOf stored extension featureId) as [p|]; cbn.
    + split; [done|]. intros [= Heq]. destruct fs as [? [? ?]]. cbn in *.
      congruence.
    + done.
Qed.

Lemma external_write_announces_accessData_witness :
  let s := run [GetAccess "pub.ext" "codeActions" 1000 true]
             (newService repoRegistry NoValue) in
  let s' := (exec (ExternalWrite (storageService s)) s).2 in
  ∃ fired,
    onDidChangeAccessData s' = onDidChangeAccessData s ++ fired
    ∧ {| ad_extension := "pub.ext"; ad_featureId := "codeActions";
         ad_accessData := Some
           {| totalCount := totalOf s' "pub.ext" "codeActions";
              current := None |} |} ∈ fired.
Proof.
  intros s s'.
  destruct (external_write_announces_accessData s (storageService s))
    as (fired & Hev & _ & _ & Hin).
  exists fired. split; [exact Hev|].
  apply Hin; vm_compute; eauto.
Defined.

(** ** The session count and the lifetime count *)

Lemma recordStep_bounded o o' g :
  RecordStep o o' g → sessionBounded o → sessionBounded o'.
Proof.
  unfold sessionBounded.
  intros Hstep. destruct Hstep as [o|o d|o st|fs now Hd|o now Hd];
    try destruct o as [fs|]; try destruct fs as [dis [total [[c la st']|]]];
    cbn; intros; repeat case_bool_decide; lia.
Qed.

(** X11. As long as no stored value holds a negative count, the count of
    the current session is never negative and never exceeds the lifetime
    count, for every pair and in every state a history leads to. *)
Theorem session_count_within_total
    (reg : gmap string IExtensionFeatureDescriptor) (stored : StoredValue)
    (calls : list Call) (extension featureId : string) :
  nonnegStored stored →
  Forall nonnegCall calls →
  let s := run calls (newService reg stored) in
  0 ≤ sessionCountOf s extension featureId ≤ totalOf s extension featureId.
Proof.
  intros Hstored Hcalls s. subst s.
  change (sessionBounded
            (stateOf (run calls (newService reg stored)) extension featureId)).
  induction calls as [|c calls IH] using rev_ind.
  - unfold sessionBounded, stateOf.
    cbn [run foldl newService extensionFeaturesState].
    rewrite lookupState_restored.
    destruct (storedOf stored extension featureId) as [p|] eqn:Hp; cbn;
      [|lia].
    specialize (Hstored _ _ _ Hp). lia.
  - apply Forall_app in Hcalls as [Hcalls Hc].
    rewrite Forall_singleton in Hc. rewrite run_snoc.
    destruct c as [| | | | | |stored'|];
      try (eapply recordStep_bounded;
           [by apply exec_recordStep|by apply IH]).
    destruct (exec_ExternalWrite stored' (run calls (newService reg stored))
                extension featureId) as (_ & _ & _ & ->).
    unfold sessionBounded.
    destruct (storedOf stored' extension featureId) as [p|] eqn:Hp; cbn;
      [|lia].
    specialize (Hc _ _ _ Hp). lia.
Qed.

Lemma session_count_within_total_witness :
  let s := run [GetAccess "pub.ext" "codeActions" 1000 true;
                ExternalWrite NoValue;
                SetStatus "pub.ext" "codeActions" None]
             (newService repoRegistry NoValue) in
  0 ≤ sessionCountOf s "pub.ext" "codeActions"
    ≤ totalOf s "pub.ext" "codeActions".
Proof.
  apply (session_count_within_total repoRegistry NoValue
           [GetAccess "pub.ext" "codeActions" 1000 true;
            ExternalWrite NoValue;
            SetStatus "pub.ext" "codeActions" None]).
  - intros e f p Hp. discriminate Hp.
  - repeat constructor. intros e f p Hp. discriminate Hp.
Defined.

(** * Properties of the branch protection provider *)

Module BranchProtectionFacts.
Import BranchProtection.

Lemma trimStart_snoc (s : list N) (c : N) :
  trimStart (s ++ [c])
  = match trimStart s with
    | [] => if isWhiteSpace c then [] else [c]
    | t => t ++ [c]
    end.
Proof.
  induction s as [|a s IH]; cbn; [done|].
  by destruct (isWhiteSpace a).
Qed.

(** [trimEnd] from the left: white space is kept only in front of
    something that stays. *)
Lemma trimEnd_cons (c : N) (s : list N) :
  trimEnd (c :: s)
  = match trimEnd s with
    | [] => if isWhiteSpace c then [] else [c]
    | t => c :: t
    end.
Proof.
  unfold trimEnd. rewrite reverse_cons, trimStart_snoc.
  destruct (trimStart (reverse s)) as [|a t] eqn:Ht.
  - rewrite reverse_nil. by destruct (isWhiteSpace c).
  - rewrite reverse_app, reverse_singleton.
    assert (reverse (a :: t) ≠ []) as Hne.
    { intros Hr. apply (f_equal length) in Hr.
      by rewrite length_reverse in Hr. }
    by destruct (reverse (a :: t)).
Qed.

Lemma trimEnd_nil : trimEnd [] = [].
Proof. reflexivity. Qed.

Lemma trimEnd_head (s : list N) (c : N) :
  isWhiteSpace c = false → ∃ t, trimEnd (c :: s) = c :: t.
Proof.
  intros Hc. rewrite trimEnd_cons, Hc. destruct (trimEnd s); eauto.
Qed.

Lemma trimEnd_last (s : list N) (c : N) :
  last (trimEnd s) = Some c → isWhiteSpace c = false.
Proof.
  induction s as [|a s IH]; [done|]. rewrite trimEnd_cons.
  destruct (trimEnd s) as [|b t] eqn:Ht.
  - destruct (isWhiteSpace a) eqn:Ha; [done|]. by intros [= <-].
  - rewrite last_cons. destruct (last (b :: t)) eqn:Hl; [done|].
    by rewrite last_None in Hl.
Qed.

Lemma trimEnd_idem (s : list N) : trimEnd (trimEnd s) = trimEnd s.
Proof.
  induction s as [|a s IH]; [done|]. rewrite trimEnd_cons.
  destruct (trimEnd s) as [|b t] eqn:Ht.
  - destruct (isWhiteSpace a) eqn:Ha; [done|].
    by rewrite trimEnd_cons, trimEnd_nil, Ha.
  - by rewrite trimEnd_cons, IH.
Qed.

Lemma trimStart_head (s : list N) (c : N) :
  head (trimStart s) = Some c → isWhiteSpace c = false.
Proof.
  induction s as [|a s IH]; [done|]. cbn.
  destruct (isWhiteSpace a) eqn:Ha; [done|]. by intros [= <-].
Qed.

Lemma trimStart_fixed (s : list N) :
  (∀ c, head s = Some c → isWhiteSpace c = false) → trimStart s = s.
Proof.
  destruct s as [|a s]; [done|]. intros Hhead. cbn.
  by rewrite (Hhead a).
Qed.

Lemma trim_trimmed (s : list N) : trimmed (trim s).
Proof.
  unfold trim. split; [|apply trimEnd_last].
  intros c. destruct (trimStart s) as [|a t] eqn:Ht; [done|].
  assert (isWhiteSpace a = false) as Ha
    by (apply (trimStart_head s); by rewrite Ht).
  destruct (trimEnd_head t a Ha) as [t' ->]. by intros [= <-].
Qed.

Lemma trim_fixed (s : list N) : trimmed s → trim s = s.
Proof.
  intros [Hhead Hlast]. unfold trim. rewrite trimStart_fixed by done.
  clear Hhead. induction s as [|a s IH]; [done|].
  rewrite trimEnd_cons. destruct s as [|b s].
  - rewrite trimEnd_nil. by rewrite (Hlast a).
  - rewrite IH by (intros c Hc; apply Hlast; by rewrite last_cons, Hc).
    done.
Qed.

Lemma elem_of_patternsOf (config : ConfigValue) (pattern : list N) :
  pattern ∈ patternsOf config
  ↔ pattern ≠ []
    ∧ ∃ s, Str s ∈ branchProtectionValues config ∧ pattern = trim s.
Proof.
  unfold patternsOf. rewrite list_elem_of_filter, list_elem_of_fmap.
  split.
  - intros (Hne & [| |s|items|] & -> & Hin); try done. eauto.
  - intros (Hne & s & Hin & ->). split; [done|]. by exists (Str s).
Qed.

(** X12. Every branch pattern the provider gives out is a string of the
    setting with the white space at both ends removed, and is not empty:
    values that are not strings and strings of white space only are
    dropped. This holds after construction and after any series of
    configuration changes, and the map never has another key than the
    empty string. *)
Theorem patterns_are_trimmed (root : string) (config : ConfigValue)
    (changes : list (bool * ConfigValue)) :
  let p := afterChanges changes (newProvider root config) in
  ∃ patterns,
    provideBranchProtection p = {[ [] := patterns ]}
    ∧ Forall (λ pattern, pattern ≠ [] ∧ trimmed pattern) patterns.
Proof.
  intros p. subst p.
  assert (∀ p0, (∃ patterns,
                   branchProtection p0 = {[ [] := patterns ]}
                   ∧ Forall (λ pattern, pattern ≠ [] ∧ trimmed pattern)
                       patterns) →
            ∀ c, ∃ patterns,
              branchProtection (updateBranchProtection c p0)
                = {[ [] := patterns ]}
              ∧ Forall (λ pattern, pattern ≠ [] ∧ trimmed pattern) patterns)
    as Hupdate.
  { intros p0 (old & Hold & _) c. exists (patternsOf c). cbn. split.
    - by rewrite Hold, insert_singleton_eq.
    - apply Forall_forall. intros pattern
        (Hne & s & _ & ->)%elem_of_patternsOf.
      split; [done|apply trim_trimmed]. }
  assert (∃ patterns,
            branchProtection (newProvider root config)
              = {[ [] := patterns ]}
            ∧ Forall (λ pattern, pattern ≠ [] ∧ trimmed pattern) patterns)
    as Hinit.
  { exists (patternsOf config). split; [done|].
    apply Forall_forall. intros pattern
      (Hne & s & _ & ->)%elem_of_patternsOf.
    split; [done|apply trim_trimmed]. }
  revert Hinit. generalize (newProvider root config).
  induction changes as [|[affects c] changes IH]; intros p0 Hp0; [done|].
  cbn [afterChanges foldl]. apply IH.
  destruct affects; cbn; [by apply Hupdate|done].
Qed.

(** X13. Reading the setting is idempotent and treats a lone value as the
    array of that value: the patterns of a string are those of the array
    holding it, a missing or [null] setting and a value of another type
    give no pattern, and the patterns obtained, written back as the array
    of the setting, give the same patterns. *)
Theorem patternsOf_normalizes (config : ConfigValue) (s : list N) :
  patternsOf (Str s) = patternsOf (Arr [Str s])
  ∧ patternsOf Undefined = []
  ∧ patternsOf Null = []
  ∧ patternsOf Other = []
  ∧ patternsOf (Arr (Str <$> patternsOf config)) = patternsOf config.
Proof.
  repeat split; try done.
  assert (Forall (λ pattern, pattern ≠ [] ∧ trimmed pattern)
            (patternsOf config)) as Hall.
  { apply Forall_forall. intros pattern
      (Hne & s' & _ & ->)%elem_of_patternsOf.
    split; [done|apply trim_trimmed]. }
  revert Hall. generalize (patternsOf config). intros patterns Hall.
  unfold patternsOf. cbn [branchProtectionValues].
  induction Hall as [|pattern patterns [Hne Htrim] _ IH]; [done|].
  cbn [fmap list_fmap]. rewrite (trim_fixed pattern Htrim).
  rewrite filter_cons_True by done. by rewrite IH.
Qed.

(** X14. The provider tells its listeners once, with the repository root,
    at construction and at every configuration change that affects the
    setting, whether or not the patterns have changed; a change that does
    not affect the setting leaves the provider as it is. *)
Theorem changes_fire_per_affecting_change (root : string)
    (config : ConfigValue) (changes : list (bool * ConfigValue)) :
  let p := afterChanges changes (newProvider root config) in
  onDidChangeBranchProtection p
    = replicate (S (length (filter (λ change, change.1 = true) changes)))
        root
  ∧ repositoryRoot p = root
  ∧ (∀ c p0, onDidChangeConfiguration false c p0 = p0).
Proof.
  intros p. subst p.
  assert (∀ (n : nat) p0,
            repositoryRoot p0 = root →
            onDidChangeBranchProtection p0 = replicate n root →
            onDidChangeBranchProtection (afterChanges changes p0)
              = replicate
                  (n + length (filter (λ change, change.1 = true) changes))
                  root
              ∧ repositoryRoot (afterChanges changes p0) = root) as Hgen.
  { induction changes as [|[affects c] changes IH]; intros n p0 Hroot Hev.
    - cbn. by rewrite Nat.add_0_r.
    - cbn [afterChanges foldl]. destruct affects; cbn [fst snd].
      + rewrite filter_cons_True by done. cbn [length].
        rewrite Nat.add_succ_r. apply (IH (S n)); [done|].
        cbn. rewrite Hev, Hroot.
        by rewrite <- replicate_S_end.
      + rewrite filter_cons_False by done. by apply IH. }
  destruct (Hgen 1%nat (newProvider root config)) as [Hev Hroot]; [done..|].
  by repeat split.
Qed.

End BranchProtectionFacts.

(** * Properties of the jsonValidation extension point *)

Module JsonValidationFacts.
Import Stdlib.Strings.Ascii.
Import JsonValidation.

Lemma append_String (c : ascii) (s1 s2 : string) :
  String c s1 +:+ s2 = String c (s1 +:+ s2).
Proof. reflexivity. Qed.

Lemma afterSchemeChars_app (scheme rest : string) :
  schemeChars scheme = true →
  afterSchemeChars (scheme +:+ "://" +:+ rest) = "://" +:+ rest.
Proof.
  induction scheme as [|c scheme IH]; [done|].
  rewrite append_String. cbn [schemeChars afterSchemeChars].
  intros [Hc Hscheme]%andb_prop. rewrite Hc. by apply IH.
Qed.

Lemma afterSchemeChars_split (s : string) :
  ∃ scheme, s = scheme +:+ afterSchemeChars s ∧ schemeChars scheme = true
    ∧ (∀ c s', s = String c s' → schemeChar c = true → scheme ≠ "").
Proof.
  induction s as [|c s (scheme & Hs & Hscheme & _)].
  - by exists "".
  - cbn [afterSchemeChars]. destruct (schemeChar c) eqn:Hc.
    + exists (String c scheme). rewrite append_String. cbn [schemeChars].
      rewrite Hc, Hscheme. by rewrite <- Hs.
    + exists "". split; [done|]. split; [done|].
      intros c' s' [= <- <-]. by rewrite Hc.
Qed.

Lemma prefix_scheme_separator (s : string) :
  String.prefix "://" s = true ↔ ∃ rest, s = "://" +:+ rest.
Proof.
  split.
  - destruct s as [|c1 [|c2 [|c3 rest]]]; cbn; try done;
      repeat (case_match; try done); subst; eauto.
  - intros [rest ->]. cbn. by destruct rest.
Qed.

(** X15. The test for an absolute url accepts exactly the strings that
    begin with a non-empty run of characters other than [: / ? #] followed
    by [://]; in particular it rejects every url that starts with [./], so
    that the two accepted forms of a url exclude each other. *)
Theorem hasScheme_iff (uri : string) :
  (hasScheme uri = true
   ↔ ∃ scheme rest,
       uri = scheme +:+ "://" +:+ rest
       ∧ scheme ≠ "" ∧ schemeChars scheme = true)
  ∧ (String.prefix "./" uri = true → hasScheme uri = false).
Proof.
  split; [split|].
  - destruct uri as [|c uri']; [done|]. cbn [hasScheme].
    intros [Hc [rest Hrest]%prefix_scheme_separator]%andb_prop.
    destruct (afterSchemeChars_split (String c uri'))
      as (scheme & Hsplit & Hscheme & Hne).
    exists scheme, rest. rewrite <- Hrest. eauto.
  - intros (scheme & rest & -> & Hne & Hscheme).
    destruct scheme as [|c scheme]; [done|].
    change (hasScheme (String c (scheme +:+ "://" +:+ rest)) = true).
    cbn [hasScheme]. pose proof Hscheme as [Hc _]%andb_prop.
    rewrite Hc. cbn [andb].
    change (String c (scheme +:+ "://" +:+ rest))
      with (String c scheme +:+ "://" +:+ rest).
    rewrite afterSchemeChars_app by done. by destruct rest.
  - destruct uri as [|c1 [|c2 uri']]; cbn [String.prefix]; try done;
      repeat (case_match; try done); subst.
    intros _. cbn. done.
Qed.

Lemma hasScheme_iff_witness :
  hasScheme "https://json.schemastore.org/package" = true
  ∧ hasScheme "./schemas/package.json" = false.
Proof.
  split.
  - apply (hasScheme_iff "https://json.schemastore.org/package").
    exists "https", "json.schemastore.org/package". by repeat split.
  - by apply (hasScheme_iff "./schemas/package.json").
Defined.

Section HandlerFacts.

Variable URI : Type.
Variable joinPath : URI → string → string + URI.
Variable isEqualOrParent : URI → URI → bool.

Local Abbreviation checkItem := (checkItem URI joinPath isEqualOrParent).
Local Abbreviation checkItems := (checkItems URI joinPath isEqualOrParent).
Local Abbreviation handler := (handler URI joinPath isEqualOrParent).

Lemma checkItem_length (location : URI) (item : Value)
    (ds : list (Diagnostic URI)) :
  checkItem location item = Some ds → (length ds ≤ 1)%nat.
Proof.
  unfold JsonValidation.checkItem.
  destruct item as [| |s|items|fileMatch url|]; try done;
    intros [= <-]; cbn [isString negb andb length]; try lia.
  destruct (negb (isString fileMatch) && _); [cbn; lia|].
  destruct url as [| |uri| | |]; try (cbn; lia).
  destruct (String.prefix "./" uri).
  - destruct (joinPath location uri) as [message|l]; [cbn; lia|].
    destruct (negb _); cbn; lia.
  - destruct (negb _); cbn; lia.
Qed.

(** X16. Every contributed item is reported at most once: going through
    the items of an extension yields no more diagnostics than there are
    items, and it is left by an exception exactly when an item is undefined
    or [null]. A relative url is never reported as lacking a scheme, and a
    url that does not start with [./] is never joined to the extension
    location. *)
Theorem checkItems_bound (location : URI) (items : list Value) :
  (length (checkItems location items).1 ≤ length items)%nat
  ∧ ((checkItems location items).2 = true
     ↔ Exists (λ item, item = VUndefined ∨ item = VNull) items)
  ∧ (∀ fileMatch uri ds,
       checkItem location (VObject fileMatch (VString uri)) = Some ds →
       (String.prefix "./" uri = true → invalid_url_schema ∉ ds)
       ∧ (String.prefix "./" uri = false →
          ∀ d, d ∈ ds → d = invalid_fileMatch ∨ d = invalid_url_schema)).
Proof.
  split; [|split].
  - induction items as [|item items IH]; [done|]. cbn [JsonValidation.checkItems].
    destruct (checkItem location item) as [ds|] eqn:Hitem; [|cbn; lia].
    apply checkItem_length in Hitem.
    destruct (checkItems location items) as [ds' threw]. cbn in *.
    rewrite length_app. lia.
  - induction items as [|item items IH]; cbn [JsonValidation.checkItems].
    + split; [done|]. by intros ?%Exists_nil.
    + rewrite Exists_cons.
      destruct (checkItem location item) as [ds|] eqn:Hitem.
      * destruct (checkItems location items) as [ds' threw]. cbn in *.
        rewrite IH. split; [tauto|]. intros [[-> | ->]|?]; done.
      * cbn. split; [|done]. intros _. left.
        destruct item; try done; eauto.
  - intros fileMatch uri ds. unfold JsonValidation.checkItem.
    intros [= <-].
    destruct (negb (isString fileMatch) && _).
    + split; intros _.
      * by intros [=]%list_elem_of_singleton.
      * intros d ->%list_elem_of_singleton. by left.
    + destruct (String.prefix "./" uri); split; try done.
      * intros _. destruct (joinPath location uri) as [message|l].
        -- by intros [=]%list_elem_of_singleton.
        -- destruct (negb _); [|by intros ?%elem_of_nil].
           by intros [=]%list_elem_of_singleton.
      * intros _ d. destruct (negb _);
          [intros ->%list_elem_of_singleton; by right
          |by intros ?%elem_of_nil].
Qed.

(** X17. The handler stops at the first extension whose contributed value
    is not an array: the extensions before it are validated, that one is
    told that the value must be an array, and the extensions after it are
    not looked at, so that their collectors receive nothing whatever they
    contribute. *)
Theorem handler_stops_at_first_non_array
    (before after : list (Extension URI)) (bad : Extension URI)
    (dss : list (list (Diagnostic URI))) :
  Forall2 (checked URI joinPath isEqualOrParent) before dss →
  (∀ items, value URI bad ≠ VArray items) →
  handler (before ++ bad :: after)
  = (dss ++ [invalid_jsonValidation] :: replicate (length after) [], false).
Proof.
  intros Hbefore Hbad.
  induction Hbefore as [|extension ds before dss (items & Hval & Hitems) _ IH].
  - cbn [app JsonValidation.handler].
    assert ((λ _ : Extension URI, @nil (Diagnostic URI)) <$> after
            = replicate (length after) []) as ->.
    { induction after as [|a after IHa]; [done|]. cbn. by rewrite IHa. }
    destruct (value URI bad); try done. by destruct (Hbad items).
  - cbn [app JsonValidation.handler]. rewrite Hval, Hitems, IH. done.
Qed.

End HandlerFacts.

Lemma checkItems_bound_witness :
  let joinPath := λ (location uri : string), inr (location +:+ uri) in
  let isEqualOrParent := λ (a b : string), String.prefix b a in
  Exists (λ item, item = VUndefined ∨ item = VNull)
    [VObject (VString "*.json") (VString "ftp:/x"); VNull; VOther]
  ∧ (checkItems string joinPath isEqualOrParent "/ext/a/"
       [VObject (VString "*.json") (VString "ftp:/x"); VNull; VOther])
    = ([invalid_url_schema], true).
Proof.
  intros joinPath isEqualOrParent.
  assert ((checkItems string joinPath isEqualOrParent "/ext/a/"
             [VObject (VString "*.json") (VString "ftp:/x"); VNull;
              VOther]).2 = true) as Hthrew by reflexivity.
  split; [|reflexivity].
  by apply (checkItems_bound string joinPath isEqualOrParent "/ext/a/").
Defined.

Lemma handler_stops_at_first_non_array_witness :
  let joinPath := λ (location uri : string), inr (location +:+ uri) in
  let isEqualOrParent := λ (a b : string), String.prefix b a in
  let good :=
    {| value := VArray [VObject (VString "package.json")
                          (VString "./schemas/package.json")];
       extensionLocation := "/ext/a/" |} in
  let bad := {| value := VObject VUndefined VUndefined;
                extensionLocation := "/ext/b/" |} in
  let unseen := {| value := VArray [VObject VUndefined VUndefined];
                   extensionLocation := "/ext/c/" |} in
  handler string joinPath isEqualOrParent [good; bad; unseen]
  = ([[]; [invalid_jsonValidation]; []], false).
Proof.
  intros joinPath isEqualOrParent good bad unseen.
  apply (handler_stops_at_first_non_array string joinPath isEqualOrParent
           [good] [unseen] bad [[]]).
  - constructor; [|constructor]. eexists. split; reflexivity.
  - intros items. discriminate.
Defined.

(** X18. The table of the feature has one row per contribution, in their
    order, each with one cell per header; without contributions it has no
    header either, although [shouldRender] holds as soon as the property
    is present, an empty array included. A pattern given as a one-element
    array is shown like the pattern given as a string. *)
Theorem render_table_shape (jsonValidation : option (list Contribution)) :
  let table := render jsonValidation in
  length table.2 = length (default [] jsonValidation)
  ∧ Forall (λ row, length row = length table.1) table.2
  ∧ (table.1 = [] ↔ default [] jsonValidation = [])
  ∧ shouldRender (Some []) = true
  ∧ (∀ pattern url,
       render (Some [{| c_fileMatch := inr [pattern]; c_url := url |}])
       = render (Some [{| c_fileMatch := inl pattern; c_url := url |}])).
Proof.
  intros table. subst table. unfold render.
  destruct (default [] jsonValidation) as [|v contrib]; cbn [fst snd].
  - by repeat split.
  - split; [by rewrite length_fmap|]. split.
    + apply Forall_fmap, Forall_true. done.
    + by repeat split.
Qed.

End JsonValidationFacts.

(** * Properties of the codeActions table *)

Module CodeActionsFacts.
Import CodeActions.

Section RenderFacts.

Variable localeCompare : string → string → Z.

Local Abbreviation compareFn := (compareFn localeCompare).
Local Abbreviation insertSorted := (insertSorted localeCompare).
Local Abbreviation sort := (sort localeCompare).
Local Abbreviation render := (render localeCompare).

Lemma insertSorted_Permutation (a : FlatAction) (l : list FlatAction) :
  insertSorted a l ≡ₚ a :: l.
Proof.
  induction l as [|b l IH]; [done|]. cbn [CodeActions.insertSorted].
  case_bool_decide; [|done]. by rewrite IH, Permutation_swap.
Qed.

Lemma sort_Permutation (l : list FlatAction) : sort l ≡ₚ l.
Proof.
  induction l as [|a l IH]; [done|]. cbn [CodeActions.sort foldr].
  fold (sort l). by rewrite insertSorted_Permutation, IH.
Qed.

Lemma length_flatActions (contributions : list CodeActionsExtensionPoint) :
  length (flatActions contributions)
  = sum_list ((λ c, length (actions c)) <$> contributions).
Proof.
  unfold flatActions.
  induction contributions as [|c contributions IH]; [done|].
  cbn [mbind list_bind fmap list_fmap sum_list sum_list_with].
  rewrite length_app, length_fmap. by rewrite <- IH.
Qed.

(** X19. The table of contributed code actions has one row for every
    action of every contribution, each action once, and every row has one
    cell per header. A manifest with contributions that hold no action
    gets the headers and no row; only a manifest without contribution gets
    an empty table. *)
Theorem render_lists_every_action
    (codeActions : option (list CodeActionsExtensionPoint)) :
  let contributions := default [] codeActions in
  let table := render codeActions in
  (∃ ordered, table.2 = row <$> ordered
     ∧ ordered ≡ₚ flatActions contributions)
  ∧ length table.2
    = sum_list ((λ c, length (actions c)) <$> contributions)
  ∧ Forall (λ cells, length cells = length table.1) table.2
  ∧ (table.1 = [] ↔ contributions = []).
Proof.
  intros contributions table. subst contributions table.
  unfold CodeActions.render.
  destruct (default [] codeActions) as [|c contributions] eqn:Hc;
    cbn [fst snd].
  - split; [by exists []|]. by repeat split.
  - split; [eexists; split; [done|apply sort_Permutation]|].
    split; [|split; [|done]].
    + by rewrite length_fmap, sort_Permutation, length_flatActions.
    + apply Forall_fmap, Forall_true. done.
Qed.

Hypothesis compare_total :
  ∀ a b, 0 < localeCompare a b → localeCompare b a ≤ 0.
Hypothesis compare_trans :
  ∀ a b c, localeCompare a b ≤ 0 → localeCompare b c ≤ 0 →
    localeCompare a c ≤ 0.

Lemma insertSorted_sorted (a : FlatAction) (l : list FlatAction) :
  StronglySorted (λ x y, compareFn x y ≤ 0) l →
  StronglySorted (λ x y, compareFn x y ≤ 0) (insertSorted a l).
Proof.
  induction 1 as [|b l Hsorted IH Hb]; cbn [CodeActions.insertSorted].
  - repeat constructor.
  - case_bool_decide as Hab.
    + constructor; [done|].
      rewrite insertSorted_Permutation. constructor; [|done].
      by apply compare_total.
    + constructor; [by constructor|]. constructor; [lia|].
      eapply Forall_impl; [exact Hb|]. intros c Hbc. cbn in *.
      unfold CodeActions.compareFn in *. eapply compare_trans; [|exact Hbc].
      lia.
Qed.

(** X20. With a comparison of titles that is total and transitive, the
    rows come in the order of their titles: no row has to follow a later
    one; and actions that are contributed in that order already are left in
    the order of the manifest. *)
Theorem render_orders_by_title
    (contributions : list CodeActionsExtensionPoint) :
  contributions ≠ [] →
  ∃ ordered,
    (render (Some contributions)).2 = row <$> ordered
    ∧ StronglySorted (λ x y, compareFn x y ≤ 0) ordered
    ∧ (StronglySorted (λ x y, compareFn x y ≤ 0)
         (flatActions contributions) →
       ordered = flatActions contributions).
Proof.
  intros Hne. unfold CodeActions.render. cbn [default].
  destruct contributions as [|c contributions]; [done|]. cbn [snd].
  eexists. split; [done|]. split.
  - induction (flatActions (c :: contributions)) as [|a l IH];
      [constructor|]. by apply insertSorted_sorted.
  - induction 1 as [|a l Hsorted IH Ha]; [done|].
    cbn [CodeActions.sort foldr]. fold (sort l). rewrite IH.
    destruct l as [|b l]; [done|]. cbn [CodeActions.insertSorted].
    apply Forall_cons in Ha as [Hab _].
    by rewrite bool_decide_eq_false_2 by lia.
Qed.

End RenderFacts.

Lemma render_orders_by_title_witness :
  let byCodeUnits := λ a b : string,
    if String.leb a b then (if String.leb b a then 0 else -1) else 1 in
  let contributions :=
    [ {| languages := ["typescript"];
         actions := [ {| kind := "source.organize"; title := "Organize";
                         description := Some "Sorts the imports" |};
                      {| kind := "refactor.extract"; title := "Extract";
                         description := None |} ] |} ] in
  ∃ ordered,
    (render byCodeUnits (Some contributions)).2 = row <$> ordered
    ∧ StronglySorted (λ x y, compareFn byCodeUnits x y ≤ 0) ordered.
Proof.
  intros byCodeUnits contributions.
  destruct (render_orders_by_title byCodeUnits)
    with (contributions := contributions)
    as (ordered & Hrows & Hsorted & _).
  - intros a b. unfold byCodeUnits.
    destruct (String.leb_total a b) as [Hab|Hba].
    + rewrite Hab. destruct (String.leb b a); lia.
    + rewrite Hba. destruct (String.leb a b); lia.
  - intros a b c. unfold byCodeUnits.
    destruct (String.leb a b) eqn:Hab; [|lia].
    destruct (String.leb b c) eqn:Hbc; [|destruct (String.leb b a); lia].
    intros _ _.
    assert (String.le a c) as Hac%Is_true_true.
    { transitivity b; by apply Is_true_true. }
    rewrite Hac. destruct (String.leb c a); lia.
  - discriminate.
  - by exists ordered.
Defined.

End CodeActionsFacts.
